(** * forestutils: the height field, ground smoother and tree segmenter

    A shallow embedding of [forestutils.py] (borevitzlab/forest3D) and the
    properties of its grid engine.

    Conventions of the embedding:
    - Python floats and ints that carry heights, coordinates and colour
      totals are exact rationals ([Qc]); comparisons, [min], [max], [abs]
      and [math.floor] are the exact ones.
    - A [dict] whose iteration order is never observed is a [gmap]; a
      [dict] that the code iterates is an insertion-ordered association
      list ([odict]); a [set] is a [gset].
    - Exceptions are values of [exn]; fallible code returns [result]. *)

From Stdlib Require Import QArith Qcanon Qcabs Qround.
From stdpp Require Import base numbers gmap sets list strings.

Local Open Scope Qc_scope.
Local Open Scope list_scope.

Set Warnings "-clear-no-such-hyp".

(** ** Exceptions and fallible computations *)

Inductive exn : Type :=
  | KeyError
  | ZeroDivisionError
  | RecursionError.

Inductive result (A : Type) : Type :=
  | Ok (a : A)
  | Raise (e : exn).
Arguments Ok {A} a.
Arguments Raise {A} e.

Global Instance result_ret : MRet result := @Ok.
Global Instance result_bind : MBind result := λ A B f m,
  match m with
  | Ok a => f a
  | Raise e => Raise e
  end.

(** [d[k]]: subscripting a dict raises [KeyError] on a missing key. *)
Definition getitem {A} (o : option A) : result A :=
  match o with
  | Some a => Ok a
  | None => Raise KeyError
  end.

(** [a / b] on numbers raises [ZeroDivisionError] when [b] is zero. *)
Definition truediv (a b : Qc) : result Qc :=
  if decide (b = 0) then Raise ZeroDivisionError else Ok (a / b).

(** A [for] loop whose body may raise: the state is threaded through the
    items in order and the first exception ends the loop. *)
Fixpoint for_each {S A : Type} (xs : list A) (body : S → A → result S)
    (s : S) : result S :=
  match xs with
  | [] => Ok s
  | x :: xs' => s' ← body s x; for_each xs' body s'
  end.

(** ** Numbers *)

Definition floor (q : Qc) : Z := Qfloor q.

(** Python's [max(a, b)]: [b] only when it is strictly greater. *)
Definition pymax (a b : Qc) : Qc := if decide (a < b) then b else a.

(** Python's [min] over a set of numbers; [None] stands for the empty set
    (the callers test emptiness first). *)
Definition pymin (s : gset Qc) : option Qc :=
  foldr (λ n acc, match acc with
                  | None => Some n
                  | Some m => Some (if decide (n < m) then n else m)
                  end) None (elements s).

(** ** Cell keys *)

Record XY_Coord : Type := XY { x : Z; y : Z }.

Global Instance XY_Coord_eq_dec : EqDecision XY_Coord.
Proof. solve_decision. Defined.

Definition XY_to_pair (k : XY_Coord) : Z * Z := (x k, y k).
Definition XY_of_pair (p : Z * Z) : XY_Coord := XY p.1 p.2.

Global Instance XY_Coord_countable : Countable XY_Coord :=
  inj_countable' XY_to_pair XY_of_pair
    (λ k, match k with XY _ _ => eq_refl end).

(** [neighbors]: the eight adjacent keys, in the order of the generator
    [for a in (-1, 0, 1) for b in (-1, 0, 1) if a or b]. *)
Definition neighbors (key : XY_Coord) : list XY_Coord :=
  a ← [-1; 0; 1]%Z;
  b ← [-1; 0; 1]%Z;
  if decide (a ≠ 0 ∨ b ≠ 0)%Z then [XY (x key + a) (y key + b)] else [].

(** ** Insertion-ordered dicts

    [oget] is [d.get(k)], [oset] is [d[k] = v]: an existing key keeps its
    place, a new key goes last.  Iterating the dict visits [okeys]. *)

Definition odict (K V : Type) : Type := list (K * V).

Fixpoint oget `{EqDecision K} {V} (d : odict K V) (k : K) : option V :=
  match d with
  | [] => None
  | (k', v) :: d' => if decide (k' = k) then Some v else oget d' k
  end.

Fixpoint oset `{EqDecision K} {V} (d : odict K V) (k : K) (v : V)
    : odict K V :=
  match d with
  | [] => [(k, v)]
  | (k', v') :: d' =>
      if decide (k' = k) then (k', v) :: d' else (k', v') :: oset d' k v
  end.

Definition okeys {K V} (d : odict K V) : list K := d.*1.

(** ** Points and point files

    A vertex has [x], [y], [z] and the other properties the header names;
    [pattr] gives the value of a named property.  A file is what
    [pointcloudfile.read] yields for it, with the header's names and the
    planar offset of [pointcloudfile.offset_for]. *)

Record Point : Type := {
  px : Qc;
  py : Qc;
  pz : Qc;
  pattr : string → Qc
}.

Record PlyFile : Type := {
  names : list string;
  offset : Qc * Qc;
  points : list Point
}.

(** [k in 'xyz'] on strings is the substring test. *)
Definition in_xyz (k : string) : Prop :=
  k ∈ [""; "x"; "y"; "z"; "xy"; "yz"; "xyz"]%string.

Global Instance in_xyz_dec k : Decision (in_xyz k).
Proof. unfold in_xyz. apply _. Defined.

(** The value of field [k] of the named tuple [p]. *)
Definition field (p : Point) (k : string) : Qc :=
  if decide (k = "x")%string then px p
  else if decide (k = "y")%string then py p
  else if decide (k = "z")%string then pz p
  else pattr p k.

(** ** Command-line configuration ([args]) *)

Record Args : Type := {
  cellsize : Qc;
  utmzone : Z;
  north : bool;
  joinedcells : Qc;
  slicedepth : Qc;
  grounddepth : Qc
}.

Section forestutils.

(** [args] is the module's global configuration.  [recursion_limit] is the
    number of nested [expand] calls the interpreter allows before it raises
    [RecursionError]; [to_latlon] is the [utm] package's projection. *)
Context (args : Args).
Context (recursion_limit : nat).
Context (to_latlon : Qc → Qc → Z → bool → Qc * Qc).

(** [coords]: the key of the cell that holds a position. *)
Definition coords (pos : Point) : result XY_Coord :=
  qx ← truediv (px pos) (cellsize args);
  qy ← truediv (py pos) (cellsize args);
  Ok (XY (floor qx) (floor qy)).

(** ** Connected components *)

(** [expand] mutates [com] in place, so the labels written before an
    exception stay: the result is the final dict and how the call ended.
    [expand_loop] is the [for] loop of [expand], with [recurse] for the
    nested call; [depth] is the number of frames left. *)
Fixpoint expand_loop
    (recurse : XY_Coord → odict XY_Coord nat → odict XY_Coord nat * result unit)
    (old_key : XY_Coord) (ns : list XY_Coord) (com : odict XY_Coord nat)
    : odict XY_Coord nat * result unit :=
  match ns with
  | [] => (com, Ok ())
  | key :: ns' =>
      match oget com key with
      | None => (com, Ok ())
      | Some lk =>
          match oget com old_key with
          | None => (com, Raise KeyError)
          | Some lo =>
              if decide (lk = lo) then expand_loop recurse old_key ns' com
              else if decide (lk < lo)%nat then
                expand_loop recurse old_key ns' (oset com old_key lk)
              else
                match recurse key (oset com key lo) with
                | (com', Ok _) => expand_loop recurse old_key ns' com'
                | (com', Raise e) => (com', Raise e)
                end
          end
      end
  end.

Fixpoint expand (depth : nat) (old_key : XY_Coord) (com : odict XY_Coord nat)
    : odict XY_Coord nat * result unit :=
  match depth with
  | O => (com, Raise RecursionError)
  | S depth' =>
      expand_loop (expand depth') old_key (neighbors old_key) com
  end.

(** One iteration of the loop of [connected_components]: a
    [RuntimeError] is caught and the loop goes on. *)
Definition connected_components_body (input_dict : odict XY_Coord nat)
    (key : XY_Coord) : result (odict XY_Coord nat) :=
  match expand recursion_limit key input_dict with
  | (com, Ok _) => Ok com
  | (com, Raise RecursionError) => Ok com
  | (_, Raise e) => Raise e
  end.

Definition connected_components (input_dict : odict XY_Coord nat)
    : result (odict XY_Coord nat) :=
  for_each (okeys input_dict) connected_components_body input_dict.

(** ** Ground smoothing *)

(** The set [{ground_dict.get(n) for n in ns}] with [None] discarded. *)
Definition heights (ground_dict : gmap XY_Coord Qc) (ns : list XY_Coord)
    : gset Qc :=
  list_to_set (omap (λ n, ground_dict !! n) ns).

(** [abs(gk - n) > 2*args.cellsize] *)
Definition steep (gk n : Qc) : Prop := 2 * cellsize args < Qcabs (gk - n).

Global Instance steep_dec gk n : Decision (steep gk n).
Proof. unfold steep. apply _. Defined.

(** One iteration of the loop of [detect_issues]. *)
Definition detect_issues_body (ground_dict : gmap XY_Coord Qc)
    (problematic : gset XY_Coord) (k : XY_Coord) : result (gset XY_Coord) :=
  let adjacent := heights ground_dict (neighbors k) in
  if decide (size adjacent < 6)%nat then Ok problematic
  else
    gk ← getitem (ground_dict !! k);
    let probs := size (filter (steep gk) adjacent) in
    if decide (3 ≤ probs)%nat then Ok ({[k]} ∪ problematic)
    else Ok problematic.

Definition detect_issues_on (ground_dict : gmap XY_Coord Qc)
    (ks : list XY_Coord) : result (gset XY_Coord) :=
  for_each ks (detect_issues_body ground_dict) ∅.

Definition detect_issues (ground_dict : gmap XY_Coord Qc)
    (prior : gset XY_Coord) : result (gset XY_Coord) :=
  detect_issues_on ground_dict (elements prior).

(** One iteration of the inner loop of [smooth_ground]. *)
Definition smooth_body (problematic : gset XY_Coord)
    (ground_dict : gmap XY_Coord Qc) (key : XY_Coord) : gmap XY_Coord Qc :=
  let adjacent :=
    heights ground_dict (filter (λ n, n ∉ problematic) (neighbors key)) in
  match pymin adjacent with
  | None => ground_dict
  | Some m => <[key := m + 2 * cellsize args]> ground_dict
  end.

Fixpoint smooth_rounds (rounds : nat) (ground_dict : gmap XY_Coord Qc)
    (problematic : gset XY_Coord) : result (gmap XY_Coord Qc) :=
  match rounds with
  | O => Ok ground_dict
  | S rounds' =>
      problematic' ← detect_issues ground_dict problematic;
      smooth_rounds rounds'
        (foldl (smooth_body problematic') ground_dict (elements problematic'))
        problematic'
  end.

Definition smooth_ground (ground_dict : gmap XY_Coord Qc)
    : result (gmap XY_Coord Qc) :=
  smooth_rounds 100 ground_dict (dom ground_dict).

(** ** The height field ([MapObj]) *)

Record MapObj : Type := {
  file : PlyFile;
  canopy : gmap XY_Coord Qc;
  density : odict XY_Coord nat;
  filtered_density : gmap XY_Coord nat;
  ground : gmap XY_Coord Qc;
  colours : gmap XY_Coord (gmap string Qc);
  trees : gmap XY_Coord nat;
  header : list string;
  utm : Qc * Qc
}.

Definition set_file (f : PlyFile) (self : MapObj) : MapObj :=
  {| file := f; canopy := canopy self; density := density self;
     filtered_density := filtered_density self; ground := ground self;
     colours := colours self; trees := trees self; header := header self;
     utm := utm self |}.

Definition set_canopy (c : gmap XY_Coord Qc) (self : MapObj) : MapObj :=
  {| file := file self; canopy := c; density := density self;
     filtered_density := filtered_density self; ground := ground self;
     colours := colours self; trees := trees self; header := header self;
     utm := utm self |}.

Definition set_density (d : odict XY_Coord nat) (self : MapObj) : MapObj :=
  {| file := file self; canopy := canopy self; density := d;
     filtered_density := filtered_density self; ground := ground self;
     colours := colours self; trees := trees self; header := header self;
     utm := utm self |}.

Definition set_filtered_density (d : gmap XY_Coord nat) (self : MapObj)
    : MapObj :=
  {| file := file self; canopy := canopy self; density := density self;
     filtered_density := d; ground := ground self;
     colours := colours self; trees := trees self; header := header self;
     utm := utm self |}.

Definition set_ground (g : gmap XY_Coord Qc) (self : MapObj) : MapObj :=
  {| file := file self; canopy := canopy self; density := density self;
     filtered_density := filtered_density self; ground := g;
     colours := colours self; trees := trees self; header := header self;
     utm := utm self |}.

Definition set_colours (c : gmap XY_Coord (gmap string Qc)) (self : MapObj)
    : MapObj :=
  {| file := file self; canopy := canopy self; density := density self;
     filtered_density := filtered_density self; ground := ground self;
     colours := c; trees := trees self; header := header self;
     utm := utm self |}.

Definition set_trees (t : gmap XY_Coord nat) (self : MapObj) : MapObj :=
  {| file := file self; canopy := canopy self; density := density self;
     filtered_density := filtered_density self; ground := ground self;
     colours := colours self; trees := t; header := header self;
     utm := utm self |}.

(** One iteration of the loop of [update_spatial]. *)
Definition update_spatial_body (self : MapObj) (p : Point) : result MapObj :=
  idx ← coords p;
  match oget (density self) idx with
  | None =>
      Ok (set_filtered_density (<[idx := 1%nat]> (filtered_density self))
         (set_ground (<[idx := pz p]> (ground self))
         (set_canopy (<[idx := pz p]> (canopy self))
         (set_density (oset (density self) idx 1%nat) self))))
  | Some d =>
      let self := set_density (oset (density self) idx (d + 1)%nat) self in
      g ← getitem (ground self !! idx);
      if decide (pz p < g) then Ok (set_ground (<[idx := pz p]> (ground self)) self)
      else
        c ← getitem (canopy self !! idx);
        if decide (c < pz p) then
          Ok (set_canopy (<[idx := pz p]> (canopy self)) self)
        else Ok self
  end.

(** The first loop of [_tree_components]: the cells of a tall enough
    slice, grouped by their key in the coarser grid. *)
Definition key_scale_body (self : MapObj)
    (key_scale_record : odict XY_Coord (gset XY_Coord)) (key : XY_Coord)
    : result (odict XY_Coord (gset XY_Coord)) :=
  c ← getitem (canopy self !! key);
  g ← getitem (ground self !! key);
  if decide (slicedepth args < c - g) then
    qx ← truediv (Qc_of_Z (x key)) (joinedcells args);
    qy ← truediv (Qc_of_Z (y key)) (joinedcells args);
    let cc_key := XY (floor qx) (floor qy) in
    match oget key_scale_record cc_key with
    | None => Ok (oset key_scale_record cc_key {[key]})
    | Some v => Ok (oset key_scale_record cc_key (v ∪ {[key]}))
    end
  else Ok key_scale_record.

(** The last comprehension of [_tree_components]:
    [{s: trees[k] for k, v in key_scale_record.items() for s in v}]. *)
Definition copy_labels (trees : odict XY_Coord nat)
    (out : gmap XY_Coord nat) (kv : XY_Coord * gset XY_Coord)
    : result (gmap XY_Coord nat) :=
  for_each (elements kv.2)
    (λ out s, l ← getitem (oget trees kv.1); Ok (<[s := l]> out)) out.

Definition _tree_components (self : MapObj) : result (gmap XY_Coord nat) :=
  key_scale_record ← for_each (okeys (density self)) (key_scale_body self) [];
  let trees : odict XY_Coord nat :=
    imap (λ i k, (k, i)) (okeys key_scale_record) in
  trees ← connected_components trees;
  for_each key_scale_record (copy_labels trees) ∅.

Definition update_spatial_loop (self : MapObj) : result MapObj :=
  for_each (points (file self)) update_spatial_body self.

Definition update_spatial (self : MapObj) : result MapObj :=
  self ← update_spatial_loop self;
  g ← smooth_ground (ground self);
  let self := set_ground g self in
  t ← _tree_components self;
  Ok (set_trees t self).

Definition is_ground (self : MapObj) (point : Point) : result bool :=
  idx ← coords point;
  g ← getitem (ground self !! idx);
  Ok (bool_decide (pz point - g < grounddepth args)).

Definition is_lowest (self : MapObj) (point : Point) : result bool :=
  idx ← coords point;
  g ← getitem (ground self !! idx);
  Ok (bool_decide (pz point = g)).

(** [{k: v for k, v in p._asdict().items() if k not in 'xyz'}] *)
Definition p_cols (self : MapObj) (p : Point) : gmap string Qc :=
  list_to_map ((λ k, (k, field p k)) <$>
               filter (λ k, ¬ in_xyz k) (header self)).

(** One iteration of the loop of [update_colours]. *)
Definition update_colours_body (self : MapObj) (p : Point) : result MapObj :=
  g ← is_ground self p;
  if g : bool then Ok self
  else
    let cols := p_cols self p in
    idx ← coords p;
    fd ← getitem (filtered_density self !! idx);
    let self :=
      set_filtered_density (<[idx := (fd + 1)%nat]> (filtered_density self))
        self in
    match colours self !! idx with
    | None => Ok (set_colours (<[idx := cols]> (colours self)) self)
    | Some _ =>
        self ← for_each (map_to_list cols)
          (λ self kv,
             c ← getitem (colours self !! idx);
             t ← getitem (c !! kv.1);
             Ok (set_colours (<[idx := <[kv.1 := t + kv.2]> c]> (colours self))
                   self)) self;
        Ok self
    end.

Definition update_colours (self : MapObj) : result MapObj :=
  for_each (points (file self)) update_colours_body self.

(** [MapObj.__init__]: [new_MapObj] is the object before the first pass. *)
Definition new_MapObj (input_file : PlyFile) : MapObj :=
  {| file := input_file; canopy := ∅; density := [];
     filtered_density := ∅; ground := ∅; colours := ∅; trees := ∅;
     header := names input_file; utm := offset input_file |}.

Definition MapObj_init (input_file : PlyFile) (with_colours : bool)
    : result MapObj :=
  self ← update_spatial (new_MapObj input_file);
  if with_colours then update_colours self else Ok self.

(** ** Tree records *)

Definition sumZ (zs : list Z) : Z := foldr Z.add 0%Z zs.
Definition sumQc (qs : list Qc) : Qc := foldr Qcplus 0 qs.
Definition Qc_of_nat (n : nat) : Qc := Qc_of_Z (Z.of_nat n).

(** The loop of [tree_data] over the colours of one cell. *)
Definition tree_colour_body (self : MapObj) (k : XY_Coord)
    (out : gmap string Qc) (ct : string * Qc) : result (gmap string Qc) :=
  fd ← getitem (filtered_density self !! k);
  mean ← truediv ct.2 (Qc_of_nat fd);
  Ok (<[ct.1 := mean]> out).

(** One iteration of the loop of [tree_data] over the cells. *)
Definition tree_data_body (self : MapObj) (out : gmap string Qc)
    (k : XY_Coord) : result (gmap string Qc) :=
  h ← getitem (out !! "height"%string);
  c ← getitem (canopy self !! k);
  g ← getitem (ground self !! k);
  let out := <["height"%string := pymax h (c - g)]> out in
  n ← getitem (out !! "point_count"%string);
  d ← getitem (oget (density self) k);
  let out := <["point_count"%string := n + Qc_of_nat d]> out in
  cols ← getitem (colours self !! k);
  for_each (map_to_list cols) (tree_colour_body self k) out.

(** [tree_data]: [keys] is the set of cells in the order the loop visits
    it. *)
Definition tree_data (self : MapObj) (keys : list XY_Coord)
    : result (gmap string Qc) :=
  let len := Qc_of_nat (length keys) in
  mx ← truediv (cellsize args * Qc_of_Z (sumZ (x <$> keys))) len;
  let ux := (utm self).1 + mx in
  my ← truediv (cellsize args * Qc_of_Z (sumZ (y <$> keys))) len;
  let uy := (utm self).2 + my in
  let latlon := to_latlon ux uy (utmzone args) (north args) in
  gs ← for_each keys
          (λ acc k, g ← getitem (ground self !! k); Ok (acc + g)) 0;
  base ← truediv gs len;
  let out : gmap string Qc :=
    <["point_count"%string := 0]>
    (<["base_altitude"%string := base]>
    (<["area"%string := len * (cellsize args * cellsize args)]>
    (<["height"%string := 0]>
    (<["UTM_zone"%string := Qc_of_Z (utmzone args)]>
    (<["UTM_Y"%string := uy]>
    (<["UTM_X"%string := ux]>
    (<["longitude"%string := latlon.2]>
    (<["latitude"%string := latlon.1]> ∅)))))))) in
  for_each keys (tree_data_body self) out.

(** The order in which the sets built by [all_trees] are iterated is the
    interpreter's: any enumeration of the elements. *)
Context (ids_iter : gset nat → list nat).
Context (keys_iter : gset XY_Coord → list XY_Coord).
Context (ids_iter_perm : ∀ s, ids_iter s ≡ₚ elements s).
Context (keys_iter_perm : ∀ s, keys_iter s ≡ₚ elements s).

(** [keys[v]] in [all_trees]: the cells labelled [v]. *)
Definition tree_keys (self : MapObj) (v : nat) : gset XY_Coord :=
  dom (filter (λ kv, kv.2 = v) (trees self)).

(** [all_trees], run to the end as [stream_analysis] does: the records
    yielded, in order. *)
Definition all_trees (self : MapObj) : result (list (gmap string Qc)) :=
  let ids := ids_iter (list_to_set (map_to_list (trees self)).*2) in
  for_each ids
    (λ acc v,
       data ← tree_data self (keys_iter (tree_keys self v));
       h ← getitem (data !! "height"%string);
       if decide (Q2Qc (3 # 2) * slicedepth args < h) then Ok (acc ++ [data])
       else Ok acc) [].

(** ** The sparse cloud *)

(** [save_sparse_cloud] with its defaults [lowest=True, canopy=True]: the
    file written holds the points kept, and becomes the file of the map. *)
Definition keep_point (self : MapObj) (kept : list Point) (point : Point)
    : result (list Point) :=
  g ← is_ground self point;
  if negb g then Ok (kept ++ [point])
  else
    l ← is_lowest self point;
    if l : bool then Ok (kept ++ [point]) else Ok kept.

Definition save_sparse_cloud (self : MapObj) : result MapObj :=
  newpoints ← for_each (points (file self)) (keep_point self) [];
  Ok (set_file {| names := header self; offset := utm self;
                  points := newpoints |} self).

(** [main_processing] up to the rows of the table: [sparse] is the
    sparse file already on disk, if there is one. *)
Definition main_processing (input : PlyFile) (sparse : option PlyFile)
    : result (MapObj * list (gmap string Qc)) :=
  attr_map ←
    match sparse with
    | Some sparse_file => MapObj_init sparse_file true
    | None =>
        attr_map ← MapObj_init input false;
        attr_map ← save_sparse_cloud attr_map;
        update_colours attr_map
    end;
  rows ← all_trees attr_map;
  Ok (attr_map, rows).

End forestutils.

(** ** Notions used to state the properties *)

(** The neighbours of [k] that the ground layer holds. *)
Definition present_neighbors (ground_dict : gmap XY_Coord Qc) (k : XY_Coord)
    : list XY_Coord :=
  filter (λ n, is_Some (ground_dict !! n)) (neighbors k).

(** Both cells have a ground height and the two differ by more than
    [2 * cellsize]. *)
Definition steep_between (args : Args) (ground_dict : gmap XY_Coord Qc)
    (k n : XY_Coord) : Prop :=
  match ground_dict !! k, ground_dict !! n with
  | Some gk, Some h => steep args gk h
  | _, _ => False
  end.

Global Instance steep_between_dec args ground_dict k n :
  Decision (steep_between args ground_dict k n).
Proof.
  unfold steep_between.
  destruct (ground_dict !! k), (ground_dict !! n); apply _.
Defined.

(** The neighbours of [k] whose ground height differs from that of [k] by
    more than [2 * cellsize]. *)
Definition steep_neighbors (args : Args) (ground_dict : gmap XY_Coord Qc)
    (k : XY_Coord) : list XY_Coord :=
  filter (steep_between args ground_dict k) (neighbors k).

(** The ground heights of the present neighbours, one per neighbour. *)
Definition neighbor_heights (ground_dict : gmap XY_Coord Qc) (k : XY_Coord)
    : list Qc :=
  omap (λ n, ground_dict !! n) (neighbors k).

(** The cell of a point when [cellsize] is not zero. *)
Definition cell (args : Args) (p : Point) : XY_Coord :=
  XY (floor (px p / cellsize args)) (floor (py p / cellsize args)).

(** The heights of the points of [ps] that fall in cell [c], in order. *)
Definition cell_heights (args : Args) (c : XY_Coord) (ps : list Point)
    : list Qc :=
  pz <$> filter (λ p, cell args p = c) ps.

(** What the loop of [update_spatial] has stored once it has read [ps]:
    nothing for a cell without points; for the others the number of
    points, a filtered density of 1, and the least and greatest height. *)
Definition spatial_inv (args : Args) (ps : list Point) (m : MapObj) : Prop :=
  ∀ c,
    let zs := cell_heights args c ps in
    (zs = [] →
       oget (density m) c = None ∧ ground m !! c = None ∧
       canopy m !! c = None ∧ filtered_density m !! c = None) ∧
    (zs ≠ [] →
       oget (density m) c = Some (length zs) ∧
       filtered_density m !! c = Some 1%nat ∧
       ∃ g cz, ground m !! c = Some g ∧ canopy m !! c = Some cz ∧
               g ∈ zs ∧ cz ∈ zs ∧ ∀ z, z ∈ zs → g ≤ z ∧ z ≤ cz).

(** A cell is eligible for segmentation when its canopy is more than
    [slicedepth] above its ground. *)
Definition eligible (args : Args) (m : MapObj) (k : XY_Coord) : Prop :=
  ∃ c g, canopy m !! k = Some c ∧ ground m !! k = Some g ∧
         slicedepth args < c - g.

(** [recurse] only rewrites labels of keys the dict already has, and the
    only exception it can end with is [RecursionError]. *)
Definition expand_safe
    (recurse : XY_Coord → odict XY_Coord nat → odict XY_Coord nat * result unit)
    : Prop :=
  ∀ key com, is_Some (oget com key) →
    okeys (recurse key com).1 = okeys com ∧
    ((recurse key com).2 = Ok () ∨ (recurse key com).2 = Raise RecursionError).

(** [is_ground] is false for [p]: it lies at least [grounddepth] above
    the ground height that [G] has for its cell. *)
Definition above_ground (args : Args) (G : gmap XY_Coord Qc) (p : Point)
    : Prop :=
  match G !! cell args p with
  | Some g => ¬ (pz p - g < grounddepth args)
  | None => False
  end.

Global Instance above_ground_dec args G p : Decision (above_ground args G p).
Proof. unfold above_ground. destruct (G !! cell args p); apply _. Defined.

(** [is_lowest] is true for [p]. *)
Definition lowest (args : Args) (G : gmap XY_Coord Qc) (p : Point) : Prop :=
  G !! cell args p = Some (pz p).

Global Instance lowest_dec args G p : Decision (lowest args G p).
Proof. unfold lowest. apply _. Defined.

(** The points [save_sparse_cloud] keeps. *)
Definition in_sparse (args : Args) (G : gmap XY_Coord Qc) (p : Point)
    : Prop :=
  above_ground args G p ∨ lowest args G p.

Global Instance in_sparse_dec args G p : Decision (in_sparse args G p).
Proof. unfold in_sparse. apply _. Defined.

(** The points of cell [c] that the second pass counts. *)
Definition counted (args : Args) (G : gmap XY_Coord Qc) (c : XY_Coord)
    (p : Point) : Prop :=
  cell args p = c ∧ above_ground args G p.

(** The properties that [update_colours] accumulates. *)
Definition colour_names (hdr : list string) : list string :=
  filter (λ k, ¬ in_xyz k) hdr.

(** What the loop of [update_colours] has stored once it has read [qs],
    starting from [m0]: the spatial layers are those of [m0], the filtered
    density of a cell has grown by the number of its counted points, and
    the cells with a colour entry are those with a counted point. *)
Definition colours_inv (args : Args) (m0 : MapObj) (qs : list Point)
    (m : MapObj) : Prop :=
  ground m = ground m0 ∧ canopy m = canopy m0 ∧ density m = density m0 ∧
  trees m = trees m0 ∧ file m = file m0 ∧ header m = header m0 ∧
  utm m = utm m0 ∧
  (∀ c, filtered_density m !! c =
        (λ n, n + length (filter (counted args (ground m0) c) qs))%nat
          <$> filtered_density m0 !! c) ∧
  (∀ c, is_Some (colours m !! c) ↔
        ∃ p, p ∈ qs ∧ counted args (ground m0) c p) ∧
  (∀ c cols k, colours m !! c = Some cols →
               (is_Some (cols !! k) ↔ k ∈ colour_names (header m0))).

(** Every layer that [tree_data] reads has an entry for cell [k], and the
    filtered density there is not zero. *)
Definition cell_ready (m : MapObj) (k : XY_Coord) : Prop :=
  is_Some (canopy m !! k) ∧ is_Some (ground m !! k) ∧
  is_Some (oget (density m) k) ∧ is_Some (colours m !! k) ∧
  match filtered_density m !! k with
  | Some n => n ≠ 0%nat
  | None => False
  end.

Global Instance cell_ready_dec m k : Decision (cell_ready m k).
Proof.
  unfold cell_ready. destruct (filtered_density m !! k); apply _.
Defined.

(** Every labelled cell is ready for [tree_data]. *)
Definition tree_ready (m : MapObj) : Prop :=
  set_Forall (cell_ready m) (dom (trees m)).

(** The record passes the height filter of [all_trees]. *)
Definition tall (args : Args) (data : gmap string Qc) : Prop :=
  match data !! "height"%string with
  | Some h => Q2Qc (3 # 2) * slicedepth args < h
  | None => False
  end.

Global Instance tall_dec args data : Decision (tall args data).
Proof. unfold tall. destruct (data !! "height"%string); apply _. Defined.

(** The two entries that the loop of [tree_data] reads back. *)
Definition has_counters (out : gmap string Qc) : Prop :=
  is_Some (out !! "height"%string) ∧ is_Some (out !! "point_count"%string).

(** ** Concrete inputs *)

Definition num (a : Z) (b : positive) : Qc := Q2Qc (a # b).

(** [cellSize=1, sliceDepth=0.5, groundDepth=0.2, joinedCells=3] *)
Definition example_args : Args :=
  {| cellsize := 1; utmzone := 55; north := false;
     joinedcells := Qc_of_Z 3; slicedepth := num 1 2;
     grounddepth := num 1 5 |}.

Definition flat_ground : gmap XY_Coord Qc := {[ XY 0 0 := 0 ]}.

(** A cell at height 0 with six of its eight neighbours present, at
    heights 10 to 15. *)
Definition six_neighbors : gmap XY_Coord Qc :=
  list_to_map
    [(XY 0 0, 0); (XY (-1) (-1), Qc_of_Z 10); (XY (-1) 0, Qc_of_Z 11);
     (XY (-1) 1, Qc_of_Z 12); (XY 0 (-1), Qc_of_Z 13);
     (XY 0 1, Qc_of_Z 14); (XY 1 (-1), Qc_of_Z 15)].

(** A vertex with no property besides its position. *)
Definition point_at (a b c : Z) : Point :=
  {| px := Qc_of_Z a; py := Qc_of_Z b; pz := Qc_of_Z c; pattr := λ _, 0 |}.

(** A file of such vertices. *)
Definition xyz_file (ps : list Point) : PlyFile :=
  {| names := ["x"; "y"; "z"]%string; offset := (0, 0); points := ps |}.

(** A cell with one point at height 0, ringed by eight cells with one
    point each, at heights 10 to 17. *)
Definition pit_file : PlyFile :=
  xyz_file [point_at 0 0 0; point_at (-1) (-1) 10; point_at (-1) 0 11;
            point_at (-1) 1 12; point_at 0 (-1) 13; point_at 0 1 14;
            point_at 1 (-1) 15; point_at 1 0 16; point_at 1 1 17].

(** A cell with one point at height 100, ringed by eight cells with one
    point each, at heights 10 to 17. *)
Definition peak_file : PlyFile :=
  xyz_file [point_at 0 0 100; point_at (-1) (-1) 10; point_at (-1) 0 11;
            point_at (-1) 1 12; point_at 0 (-1) 13; point_at 0 1 14;
            point_at 1 (-1) 15; point_at 1 0 16; point_at 1 1 17].

(** One cell with two points, at heights 0 and 0.1. *)
Definition low_file : PlyFile :=
  xyz_file [point_at 0 0 0;
            {| px := 0; py := 0; pz := num 1 10; pattr := λ _, 0 |}].

(** Two adjacent cells, each with a point at height 0 and one at
    height 3. *)
Definition example_file : PlyFile :=
  xyz_file [point_at 0 0 0; point_at 0 0 3; point_at 1 0 0; point_at 1 0 3].

(** A stand-in for the projection of the [utm] package. *)
Definition plain_latlon (easting northing : Qc) (zone : Z) (northern : bool)
    : Qc * Qc :=
  (easting, northing).

(** The map of [example_file] after both passes. *)
Definition example_map : MapObj :=
  match MapObj_init example_args 1000 example_file true with
  | Ok m => m
  | Raise _ => new_MapObj example_file
  end.

(** The configuration of [example_args] with [groundDepth=5]. *)
Definition deep_args : Args :=
  {| cellsize := 1; utmzone := 55; north := false;
     joinedcells := Qc_of_Z 3; slicedepth := num 1 2;
     grounddepth := Qc_of_Z 5 |}.


(** [MapObj.__len__]: the points observed. *)
Definition __len__ (self : MapObj) : nat :=
  foldr Nat.add 0%nat (density self).*2.

(** The configuration of [example_args] with [cellsize=0]. *)
Definition zero_args : Args :=
  {| cellsize := 0; utmzone := 55; north := false;
     joinedcells := Qc_of_Z 3; slicedepth := num 1 2;
     grounddepth := num 1 5 |}.

(** [com'] has the keys of [com] in the same order, no label of [com'] is
    greater than the label [com] has for the key, and every label of
    [com'] is a label of [com]. *)
Definition labels_shrink (com com' : odict XY_Coord nat) : Prop :=
  okeys com' = okeys com ∧
  ∀ k l', oget com' k = Some l' →
          (∃ l, oget com k = Some l ∧ (l' ≤ l)%nat) ∧
          ∃ k0, oget com k0 = Some l'.

(** [recurse] only lowers labels. *)
Definition expand_shrinks
    (recurse : XY_Coord → odict XY_Coord nat → odict XY_Coord nat * result unit)
    : Prop :=
  ∀ key com, is_Some (oget com key) → labels_shrink com (recurse key com).1.

(** Two adjacent keys with different labels. *)
Definition adjacent_labels : odict XY_Coord nat :=
  [(XY 0 0, 0%nat); (XY 1 0, 1%nat)].

(** The key of a cell in the coarser grid of [_tree_components]. *)
Definition coarse (args : Args) (key : XY_Coord) : XY_Coord :=
  XY (floor (Qc_of_Z (x key) / joinedcells args))
     (floor (Qc_of_Z (y key) / joinedcells args)).

(** A file whose vertices have a [red] property. *)
Definition red_file : PlyFile :=
  {| names := ["x"; "y"; "z"; "red"]%string; offset := (0, 0);
     points := [] |}.

(** A map with one tree of two cells: canopy 3 over ground 0, two points
    and a filtered density of 2 in each, red totals of 100 and 200. *)
Definition red_map : MapObj :=
  {| file := red_file;
     canopy := {[XY 0 0 := Qc_of_Z 3; XY 1 0 := Qc_of_Z 3]};
     density := [(XY 0 0, 2%nat); (XY 1 0, 2%nat)];
     filtered_density := {[XY 0 0 := 2%nat; XY 1 0 := 2%nat]};
     ground := {[XY 0 0 := 0; XY 1 0 := 0]};
     colours := {[XY 0 0 := {["red"%string := Qc_of_Z 100]};
                  XY 1 0 := {["red"%string := Qc_of_Z 200]}]};
     trees := {[XY 0 0 := 0%nat; XY 1 0 := 0%nat]};
     header := names red_file;
     utm := offset red_file |}.

(** The colour totals of cell (1, 0) of [red_map]. *)
Definition red_cols : gmap string Qc := {["red"%string := Qc_of_Z 200]}.

(** The record of the tree of [red_map], its cells visited in the order
    (0, 0), (1, 0). *)
Definition red_tree_data : gmap string Qc :=
  match tree_data example_args plain_latlon red_map [XY 0 0; XY 1 0] with
  | Ok data => data
  | Raise _ => ∅
  end.

(** * Properties *)

Section facts.

Context (args : Args).

(** ** Loops *)

Lemma for_each_app {S A} (xs ys : list A) (body : S → A → result S) s :
  for_each (xs ++ ys) body s = (s' ← for_each xs body s; for_each ys body s').
Proof.
  revert s. induction xs as [|x xs IH]; intros s; simpl; [done|].
  destruct (body s x) as [s'|e]; simpl; [apply IH|done].
Qed.

(** ** The ground smoother *)

Lemma detect_issues_empty g : detect_issues args g ∅ = Ok ∅.
Proof. unfold detect_issues. by rewrite elements_empty. Qed.

Lemma smooth_rounds_S n g problematic :
  smooth_rounds args (S n) g problematic =
  (problematic' ← detect_issues args g problematic;
   smooth_rounds args n
     (foldl (smooth_body args problematic') g (elements problematic'))
     problematic').
Proof. reflexivity. Qed.

Lemma smooth_rounds_empty n g : smooth_rounds args n g ∅ = Ok g.
Proof.
  induction n as [|n IH]; [done|].
  rewrite smooth_rounds_S, detect_issues_empty. cbn [mbind result_bind].
  by rewrite elements_empty.
Qed.

(** C9: on a ground map where [detect_issues] over all the cells finds
    nothing, [smooth_ground] returns the map as it was. *)
Theorem smooth_ground_stable g :
  detect_issues args g (dom g) = Ok ∅ → smooth_ground args g = Ok g.
Proof.
  intros H. unfold smooth_ground. change 100%nat with (S 99).
  rewrite smooth_rounds_S, H. cbn [mbind result_bind].
  rewrite elements_empty. apply smooth_rounds_empty.
Qed.

End facts.

Lemma smooth_ground_stable_witness :
  detect_issues example_args flat_ground (dom flat_ground) = Ok ∅ ∧
  smooth_ground example_args flat_ground = Ok flat_ground.
Proof.
  assert (H : detect_issues example_args flat_ground (dom flat_ground) = Ok ∅)
    by (vm_compute; reflexivity).
  split; [exact H | exact (smooth_ground_stable example_args flat_ground H)].
Defined.

(** ** [detect_issues] *)

Section detect_issues_facts.
Context (args : Args).

Lemma list_to_set_filter {A} {eqA : EqDecision A} {cntA : Countable A}
    (P : A → Prop) {decP : ∀ x, Decision (P x)} (l : list A) :
  filter P (list_to_set l : gset A) = list_to_set (filter P l).
Proof.
  apply set_eq. intros a.
  rewrite elem_of_filter, !elem_of_list_to_set, list_elem_of_filter. done.
Qed.

Lemma size_list_to_set_le {A} {eqA : EqDecision A} {cntA : Countable A}
    (l : list A) :
  (size (list_to_set l : gset A) ≤ length l)%nat.
Proof.
  induction l as [|a l IH].
  - rewrite list_to_set_nil, size_empty. done.
  - rewrite list_to_set_cons, size_union_alt, size_singleton. simpl.
    assert (size (list_to_set l ∖ {[a]} : gset A) ≤ size (list_to_set l : gset A))%nat.
    { apply subseteq_size. intros b. rewrite elem_of_difference. tauto. }
    lia.
Qed.

Lemma length_neighbor_heights g k :
  length (neighbor_heights g k) = length (present_neighbors g k).
Proof.
  unfold neighbor_heights, present_neighbors.
  induction (neighbors k) as [|n ns IH]; [done|].
  cbn [omap list_omap]. destruct (g !! n) as [h|] eqn:E.
  - rewrite filter_cons_True by (rewrite E; eauto). simpl. by rewrite IH.
  - rewrite filter_cons_False by (rewrite E; by intros [? ?]). done.
Qed.

Lemma length_steep_heights g k gk :
  g !! k = Some gk →
  length (filter (steep args gk) (neighbor_heights g k)) =
  length (steep_neighbors args g k).
Proof.
  intros Hk. unfold neighbor_heights, steep_neighbors.
  induction (neighbors k) as [|n ns IH]; [done|].
  cbn [omap list_omap]. destruct (g !! n) as [h|] eqn:E.
  - assert (Hiff : steep_between args g k n ↔ steep args gk h)
      by (unfold steep_between; by rewrite Hk, E).
    destruct (decide (steep args gk h)) as [Hs|Hs].
    + rewrite (filter_cons_True (steep args gk)) by done.
      rewrite (filter_cons_True (steep_between args g k)) by tauto.
      simpl. by rewrite IH.
    + rewrite (filter_cons_False (steep args gk)) by done.
      rewrite (filter_cons_False (steep_between args g k)) by tauto.
      done.
  - rewrite filter_cons_False; [done|]. unfold steep_between. rewrite Hk, E. tauto.
Qed.

Lemma detect_issues_body_ok g problematic k gk :
  g !! k = Some gk →
  detect_issues_body args g problematic k =
  Ok (if decide (6 ≤ size (heights g (neighbors k)) ∧
                 3 ≤ size (filter (steep args gk) (heights g (neighbors k))))%nat
      then {[k]} ∪ problematic else problematic).
Proof.
  intros Hk. unfold detect_issues_body. rewrite Hk. cbn [getitem mbind result_bind].
  repeat case_decide; try done; lia.
Qed.

Lemma detect_issues_on_ok g ks problematic :
  (∀ k, k ∈ ks → is_Some (g !! k)) →
  ∃ problematic',
    for_each ks (detect_issues_body args g) problematic = Ok problematic' ∧
    ∀ k, k ∈ problematic' ↔
         k ∈ problematic ∨
         (k ∈ ks ∧ ∃ gk, g !! k = Some gk ∧
            (6 ≤ size (heights g (neighbors k)))%nat ∧
            (3 ≤ size (filter (steep args gk) (heights g (neighbors k))))%nat).
Proof.
  revert problematic. induction ks as [|k0 ks IH]; intros problematic Hks.
  - exists problematic. split; [done|]. intros k. rewrite elem_of_nil. tauto.
  - destruct (Hks k0) as [gk Hk]; [left|].
    cbn [for_each]. rewrite (detect_issues_body_ok _ _ _ gk Hk).
    cbn [mbind result_bind].
    destruct (IH (if decide (6 ≤ size (heights g (neighbors k0)) ∧
                 3 ≤ size (filter (steep args gk) (heights g (neighbors k0))))%nat
      then {[k0]} ∪ problematic else problematic)) as (s' & Hs' & Hiff).
    { intros k Hin. apply Hks. by right. }
    exists s'. split; [done|]. intros k. rewrite Hiff, elem_of_cons.
    case_decide as Hd.
    + rewrite elem_of_union, elem_of_singleton. naive_solver.
    + naive_solver.
Qed.

Lemma detect_issues_ok g prior :
  prior ⊆ dom g →
  ∃ problematic,
    detect_issues args g prior = Ok problematic ∧
    ∀ k, k ∈ problematic ↔
         k ∈ prior ∧ ∃ gk, g !! k = Some gk ∧
            (6 ≤ size (heights g (neighbors k)))%nat ∧
            (3 ≤ size (filter (steep args gk) (heights g (neighbors k))))%nat.
Proof.
  intros Hsub. unfold detect_issues, detect_issues_on.
  destruct (detect_issues_on_ok g (elements prior) ∅) as (s & Hs & Hiff).
  { intros k Hk. apply elem_of_dom, Hsub. by apply elem_of_elements. }
  exists s. split; [done|]. intros k. rewrite Hiff, elem_of_elements.
  rewrite elem_of_empty. tauto.
Qed.

(** C1 (amended): on a ground map that holds every candidate,
    [detect_issues] returns a set of candidates that each have at least 6
    present neighbours; a candidate whose present neighbours have pairwise
    different ground heights is in the set exactly when at least 6 of its
    8 neighbours are present and at least 3 of them differ from its own
    ground height by more than [2 * cellsize]. *)
Theorem detect_issues_flags g prior :
  prior ⊆ dom g →
  ∃ problematic,
    detect_issues args g prior = Ok problematic ∧
    (∀ k, k ∈ problematic →
          k ∈ prior ∧ (6 ≤ length (present_neighbors g k))%nat) ∧
    (∀ k, k ∈ prior → NoDup (neighbor_heights g k) →
          (k ∈ problematic ↔
           (6 ≤ length (present_neighbors g k))%nat ∧
           (3 ≤ length (steep_neighbors args g k))%nat)).
Proof.
  intros Hsub. destruct (detect_issues_ok g prior Hsub) as (s & Hs & Hiff).
  exists s. split; [done|]. split.
  - intros k (Hin & gk & Hk & H6 & _)%Hiff. split; [done|].
    rewrite <-length_neighbor_heights.
    etrans; [exact H6|]. apply size_list_to_set_le.
  - intros k Hin Hnd. rewrite Hiff.
    assert (Hsz : size (heights g (neighbors k)) = length (present_neighbors g k)).
    { unfold heights. rewrite size_list_to_set by done.
      apply length_neighbor_heights. }
    assert (Hst : ∀ gk, g !! k = Some gk →
      size (filter (steep args gk) (heights g (neighbors k))) =
      length (steep_neighbors args g k)).
    { intros gk Hk. unfold heights. rewrite list_to_set_filter.
      rewrite size_list_to_set by (by apply NoDup_filter).
      by apply length_steep_heights. }
    split.
    + intros (_ & gk & Hk & H6 & H3). rewrite <-Hsz, <-(Hst gk Hk). done.
    + intros [H6 H3]. split; [done|].
      destruct (g !! k) as [gk|] eqn:Hk.
      * exists gk. rewrite Hsz, (Hst gk eq_refl). done.
      * apply Hsub, elem_of_dom in Hin. rewrite Hk in Hin. by destruct Hin.
Qed.
End detect_issues_facts.

Lemma detect_issues_flags_witness :
  ∃ problematic,
    detect_issues example_args six_neighbors {[XY 0 0]} = Ok problematic ∧
    (∀ k, k ∈ problematic →
          k ∈ ({[XY 0 0]} : gset XY_Coord) ∧
          (6 ≤ length (present_neighbors six_neighbors k))%nat) ∧
    (∀ k, k ∈ ({[XY 0 0]} : gset XY_Coord) →
          NoDup (neighbor_heights six_neighbors k) →
          (k ∈ problematic ↔
           (6 ≤ length (present_neighbors six_neighbors k))%nat ∧
           (3 ≤ length (steep_neighbors example_args six_neighbors k))%nat)).
Proof.
  apply (detect_issues_flags example_args six_neighbors {[XY 0 0]}).
  intros k ->%elem_of_singleton. apply elem_of_dom. vm_compute. eauto.
Defined.

(** C1 as stated fails: a cell with six present neighbours, all of them
    more than [2 * cellsize] away in height, is flagged although two of its
    eight neighbours are absent. *)
Lemma detect_issues_six_neighbors :
  ∃ problematic,
    detect_issues example_args six_neighbors {[XY 0 0]} = Ok problematic ∧
    ¬ (XY 0 0 ∈ problematic ↔
       length (present_neighbors six_neighbors (XY 0 0)) = 8%nat ∧
       (3 ≤ length (steep_neighbors example_args six_neighbors (XY 0 0)))%nat).
Proof.
  exists {[XY 0 0]}. split; [vm_compute; reflexivity|].
  intros [H _]. destruct H as [H _]; [by apply elem_of_singleton|].
  vm_compute in H. discriminate H.
Qed.

(** ** Insertion-ordered dicts *)

Section odict_facts.
Context {K : Type} {eqK : EqDecision K} {V : Type}.
Implicit Types (d : odict K V) (k : K) (v : V).

Lemma oget_oset_eq d k v : oget (oset d k v) k = Some v.
Proof.
  induction d as [|[k' v'] d IH]; simpl.
  - by rewrite decide_True.
  - destruct (decide (k' = k)) as [->|Hne]; simpl.
    + by rewrite decide_True.
    + by rewrite decide_False.
Qed.

Lemma oget_oset_ne d k k' v : k ≠ k' → oget (oset d k v) k' = oget d k'.
Proof.
  intros Hne. induction d as [|[k0 v0] d IH]; simpl.
  - by rewrite decide_False.
  - destruct (decide (k0 = k)) as [->|Hne0]; simpl.
    + by rewrite !decide_False.
    + destruct (decide (k0 = k')); [done|apply IH].
Qed.

Lemma elem_of_okeys d k : k ∈ okeys d ↔ is_Some (oget d k).
Proof.
  unfold okeys. induction d as [|[k0 v0] d IH]; simpl.
  - rewrite elem_of_nil. split; [done|]. by intros [? ?].
  - rewrite elem_of_cons, IH. destruct (decide (k0 = k)) as [->|Hne].
    + split; eauto.
    + split; [intros [?|?]; [congruence|done]|by right].
Qed.

Lemma okeys_oset_Some d k v :
  is_Some (oget d k) → okeys (oset d k v) = okeys d.
Proof.
  unfold okeys. induction d as [|[k0 v0] d IH]; simpl.
  - by intros [? ?].
  - destruct (decide (k0 = k)) as [->|Hne]; simpl; [done|].
    intros H. f_equal. by apply IH.
Qed.

Lemma okeys_oset_None d k v :
  oget d k = None → okeys (oset d k v) = okeys d ++ [k].
Proof.
  unfold okeys. induction d as [|[k0 v0] d IH]; simpl; [done|].
  destruct (decide (k0 = k)) as [->|Hne]; simpl; [done|].
  intros H. f_equal. by apply IH.
Qed.

Lemma oget_Some_elem_of d k v : oget d k = Some v → (k, v) ∈ d.
Proof.
  induction d as [|[k0 v0] d IH]; simpl; [done|].
  destruct (decide (k0 = k)) as [->|Hne].
  - intros [= ->]. by left.
  - intros H. right. by apply IH.
Qed.

Lemma elem_of_oset d k v kv :
  kv ∈ oset d k v → kv = (k, v) ∨ kv ∈ d.
Proof.
  induction d as [|[k0 v0] d IH]; simpl.
  - intros ->%list_elem_of_singleton. by left.
  - destruct (decide (k0 = k)) as [->|Hne].
    + intros [->|?]%elem_of_cons; [by left|right; by right].
    + intros [->|?]%elem_of_cons; [right; by left|].
      destruct (IH H); [by left|right; by right].
Qed.
End odict_facts.

(** ** The first pass, one point at a time *)

Section spatial_facts.
Context (args : Args).
Context (cellsize_nonzero : cellsize args ≠ 0).

Lemma coords_ok p : coords args p = Ok (cell args p).
Proof.
  unfold coords, truediv.
  repeat (rewrite decide_False by done; cbn [mbind result_bind]). done.
Qed.

Lemma cell_heights_snoc c ps p :
  cell_heights args c (ps ++ [p]) =
  cell_heights args c ps ++ (if decide (cell args p = c) then [pz p] else []).
Proof.
  unfold cell_heights. rewrite filter_app, fmap_app. f_equal.
  rewrite filter_cons, filter_nil. by case_decide.
Qed.

Lemma spatial_inv_new f : spatial_inv args [] (new_MapObj f).
Proof.
  intros c. split; [|done]. intros _. simpl. by rewrite !lookup_empty.
Qed.

Lemma Qcle_lt_weak_trans (a b c : Qc) : a < b → b ≤ c → a ≤ c.
Proof. intros H1 H2. apply Qclt_le_weak. by apply Qclt_le_trans with b. Qed.

(** The state of a cell that the point read does not fall in. *)
Lemma spatial_inv_other ps m p c (d' : odict XY_Coord nat)
    (g' c' : gmap XY_Coord Qc) (fd' : gmap XY_Coord nat) :
  spatial_inv args ps m → cell args p ≠ c →
  oget d' c = oget (density m) c → g' !! c = ground m !! c →
  c' !! c = canopy m !! c → fd' !! c = filtered_density m !! c →
  let zs := cell_heights args c (ps ++ [p]) in
  (zs = [] → oget d' c = None ∧ g' !! c = None ∧ c' !! c = None ∧
             fd' !! c = None) ∧
  (zs ≠ [] →
     oget d' c = Some (length zs) ∧ fd' !! c = Some 1%nat ∧
     ∃ g cz, g' !! c = Some g ∧ c' !! c = Some cz ∧
             g ∈ zs ∧ cz ∈ zs ∧ ∀ z, z ∈ zs → g ≤ z ∧ z ≤ cz).
Proof.
  intros Hinv Hne -> -> -> ->. cbv zeta. rewrite cell_heights_snoc.
  rewrite decide_False by done. rewrite app_nil_r. apply Hinv.
Qed.

Lemma spatial_inv_step ps m p :
  spatial_inv args ps m →
  ∃ m', update_spatial_body args m p = Ok m' ∧
        spatial_inv args (ps ++ [p]) m' ∧
        file m' = file m ∧ colours m' = colours m ∧ trees m' = trees m ∧
        header m' = header m ∧ utm m' = utm m.
Proof.
  intros Hinv. unfold update_spatial_body. rewrite coords_ok.
  cbn [mbind result_bind]. set (c0 := cell args p).
  assert (Hsnoc : cell_heights args c0 (ps ++ [p]) =
                  cell_heights args c0 ps ++ [pz p]).
  { rewrite cell_heights_snoc. by rewrite decide_True. }
  destruct (Hinv c0) as [Hnil Hcons].
  destruct (decide (cell_heights args c0 ps = [])) as [Hzs|Hzs].
  - (* first point of the cell *)
    destruct (Hnil Hzs) as (Hd & Hg & Hc & Hf). rewrite Hd.
    eexists. split; [done|]. split; [|done].
    intros c. destruct (decide (c0 = c)) as [<-|Hne].
    + cbv zeta. rewrite Hsnoc, Hzs. cbn.
      rewrite oget_oset_eq, !lookup_insert_eq.
      split; [done|]. intros _. do 2 (split; [done|]).
      exists (pz p), (pz p).
      do 2 (split; [done|]). do 2 (split; [by left|]).
      intros z ->%list_elem_of_singleton. split; apply Qcle_refl.
    + apply (spatial_inv_other ps m); cbn; try done.
      * by rewrite oget_oset_ne.
      * by rewrite lookup_insert_ne.
      * by rewrite lookup_insert_ne.
      * by rewrite lookup_insert_ne.
  - (* a later point *)
    destruct (Hcons Hzs) as (Hd & Hf & g & cz & Hg & Hc & Hgin & Hcin & Hb).
    rewrite Hd. cbn [set_density ground canopy getitem mbind result_bind].
    rewrite Hg. cbn [getitem mbind result_bind].
    assert (Hgc : g ≤ cz) by (apply (Hb g Hgin)).
    assert (Hlen : length (cell_heights args c0 (ps ++ [p])) =
                   (length (cell_heights args c0 ps) + 1)%nat).
    { rewrite Hsnoc, length_app. done. }
    assert (Hnn : cell_heights args c0 (ps ++ [p]) ≠ []).
    { rewrite Hsnoc. by intros [? _]%app_eq_nil. }
    destruct (decide (pz p < g)) as [Hlt|Hge].
    + eexists. split; [done|]. split; [|done].
      intros c. destruct (decide (c0 = c)) as [<-|Hne].
      * cbv zeta. split; [done|]. intros _. cbn.
        rewrite oget_oset_eq, lookup_insert_eq, Hlen.
        do 2 (split; [done|]). exists (pz p), cz. rewrite Hc, Hsnoc.
        do 2 (split; [done|]).
        split; [apply elem_of_app; right; by left|].
        split; [apply elem_of_app; by left|].
        intros z [H| ->%list_elem_of_singleton]%elem_of_app.
        -- split; [|by apply Hb].
           apply Qcle_lt_weak_trans with g; [done|]. by apply Hb.
        -- split; [apply Qcle_refl|]. by apply Qcle_lt_weak_trans with g.
      * apply (spatial_inv_other ps m); cbn; try done.
        -- by rewrite oget_oset_ne.
        -- by rewrite lookup_insert_ne.
    + cbn [set_density ground canopy getitem mbind result_bind].
      rewrite Hc. cbn [getitem mbind result_bind].
      apply Qcnot_lt_le in Hge.
      destruct (decide (cz < pz p)) as [Hlt|Hle].
      * eexists. split; [done|]. split; [|done].
        intros c. destruct (decide (c0 = c)) as [<-|Hne].
        -- cbv zeta. split; [done|]. intros _. cbn.
           rewrite oget_oset_eq, lookup_insert_eq, Hlen.
           do 2 (split; [done|]). exists g, (pz p). rewrite Hg, Hsnoc.
           do 2 (split; [done|]).
           split; [apply elem_of_app; by left|].
           split; [apply elem_of_app; right; by left|].
           intros z [H| ->%list_elem_of_singleton]%elem_of_app.
           ++ split; [by apply Hb|]. apply Qclt_le_weak.
              apply Qcle_lt_trans with cz; [|done]. by apply Hb.
           ++ split; [done|apply Qcle_refl].
        -- apply (spatial_inv_other ps m); cbn; try done.
           ++ by rewrite oget_oset_ne.
           ++ by rewrite lookup_insert_ne.
      * apply Qcnot_lt_le in Hle.
        eexists. split; [done|]. split; [|done].
        intros c. destruct (decide (c0 = c)) as [<-|Hne].
        -- cbv zeta. split; [done|]. intros _. cbn.
           rewrite oget_oset_eq, Hlen.
           do 2 (split; [done|]). exists g, cz. rewrite Hg, Hc, Hsnoc.
           do 2 (split; [done|]).
           split; [apply elem_of_app; by left|].
           split; [apply elem_of_app; by left|].
           intros z [H| ->%list_elem_of_singleton]%elem_of_app;
             [by apply Hb|done].
        -- apply (spatial_inv_other ps m); cbn; try done.
           by rewrite oget_oset_ne.
Qed.
End spatial_facts.

(** ** The first pass *)

Section pass1_facts.
Context (args : Args).
Context (cellsize_nonzero : cellsize args ≠ 0).

Lemma spatial_inv_loop qs ps m :
  spatial_inv args ps m →
  ∃ m', for_each qs (update_spatial_body args) m = Ok m' ∧
        spatial_inv args (ps ++ qs) m' ∧
        file m' = file m ∧ colours m' = colours m ∧ trees m' = trees m ∧
        header m' = header m ∧ utm m' = utm m.
Proof.
  revert ps m. induction qs as [|q qs IH]; intros ps m Hinv.
  - exists m. rewrite app_nil_r. done.
  - destruct (spatial_inv_step args cellsize_nonzero ps m q Hinv)
      as (m1 & Hm1 & Hinv1 & Hf1 & Hc1 & Ht1 & Hh1 & Hu1).
    destruct (IH (ps ++ [q]) m1 Hinv1)
      as (m' & Hm' & Hinv' & Hf' & Hc' & Ht' & Hh' & Hu').
    exists m'. cbn [for_each]. rewrite Hm1. cbn [mbind result_bind].
    rewrite <-app_assoc in Hinv'. split; [done|]. split; [done|].
    by rewrite Hf', Hc', Ht', Hh', Hu'.
Qed.

Lemma update_spatial_loop_ok f :
  ∃ m, update_spatial_loop args (new_MapObj f) = Ok m ∧
       spatial_inv args (points f) m ∧
       file m = f ∧ colours m = ∅ ∧ trees m = ∅ ∧
       header m = names f ∧ utm m = offset f.
Proof.
  unfold update_spatial_loop.
  destruct (spatial_inv_loop (points f) [] (new_MapObj f))
    as (m & Hm & Hinv & ?); [apply spatial_inv_new|].
  exists m. done.
Qed.

(** After the loop of [update_spatial] the ground height of a cell is at
    most its canopy height. *)
Lemma spatial_inv_ground_le_canopy ps m c g cz :
  spatial_inv args ps m →
  ground m !! c = Some g → canopy m !! c = Some cz → g ≤ cz.
Proof.
  intros Hinv Hg Hc. destruct (Hinv c) as [Hnil Hcons].
  destruct (decide (cell_heights args c ps = [])) as [Hzs|Hzs].
  - destruct (Hnil Hzs) as (_ & Hg' & _). congruence.
  - destruct (Hcons Hzs) as (_ & _ & g' & cz' & Hg' & Hc' & Hin & _ & Hb).
    rewrite Hg in Hg'. rewrite Hc in Hc'.
    injection Hg' as <-. injection Hc' as <-. by apply Hb.
Qed.

Lemma spatial_inv_dom ps m c :
  spatial_inv args ps m →
  (is_Some (oget (density m) c) ↔ is_Some (ground m !! c)) ∧
  (is_Some (oget (density m) c) ↔ is_Some (canopy m !! c)) ∧
  (is_Some (oget (density m) c) ↔ is_Some (filtered_density m !! c)).
Proof.
  intros Hinv. destruct (Hinv c) as [Hnil Hcons].
  destruct (decide (cell_heights args c ps = [])) as [Hzs|Hzs].
  - destruct (Hnil Hzs) as (-> & -> & -> & ->). done.
  - destruct (Hcons Hzs) as (-> & -> & g' & cz' & -> & -> & _). done.
Qed.

(** ** Smoothing keeps the cells *)

Lemma smooth_body_dom problematic g key :
  key ∈ dom g → dom (smooth_body args problematic g key) = dom g.
Proof.
  intros Hin. unfold smooth_body. destruct (pymin _); [|done].
  rewrite dom_insert_L. apply (anti_symm (⊆)).
  - intros k [->%elem_of_singleton|?]%elem_of_union; done.
  - intros k ?. apply elem_of_union. by right.
Qed.

Lemma smooth_pass_dom problematic g ks :
  (∀ k, k ∈ ks → k ∈ dom g) →
  dom (foldl (smooth_body args problematic) g ks) = dom g.
Proof.
  revert g. induction ks as [|k ks IH]; intros g Hks; [done|].
  cbn [foldl]. rewrite IH.
  - apply smooth_body_dom, Hks. by left.
  - intros k' Hk'. rewrite smooth_body_dom by (apply Hks; by left).
    apply Hks. by right.
Qed.

Lemma smooth_rounds_ok n g problematic :
  problematic ⊆ dom g →
  ∃ g', smooth_rounds args n g problematic = Ok g' ∧ dom g' = dom g.
Proof.
  revert g problematic. induction n as [|n IH]; intros g problematic Hsub.
  - by exists g.
  - rewrite smooth_rounds_S.
    destruct (detect_issues_ok args g problematic Hsub) as (s & Hs & Hiff).
    rewrite Hs. cbn [mbind result_bind].
    assert (Hs_sub : s ⊆ dom g).
    { intros k Hk. apply Hsub. by apply Hiff in Hk as [? _]. }
    assert (Hdom : dom (foldl (smooth_body args s) g (elements s)) = dom g).
    { apply smooth_pass_dom. intros k Hk. apply Hs_sub.
      by apply elem_of_elements. }
    destruct (IH (foldl (smooth_body args s) g (elements s)) s)
      as (g' & Hg' & Hdom'); [by rewrite Hdom|].
    exists g'. split; [done|]. by rewrite Hdom'.
Qed.

Lemma smooth_ground_ok g :
  ∃ g', smooth_ground args g = Ok g' ∧ dom g' = dom g.
Proof. apply smooth_rounds_ok. done. Qed.
End pass1_facts.

(** ** The tree segmenter *)

Section segmenter_facts.
Context (args : Args) (recursion_limit : nat).

Lemma oget_same_keys (com com' : odict XY_Coord nat) k :
  okeys com' = okeys com → is_Some (oget com k) → is_Some (oget com' k).
Proof. intros Hk. rewrite <-!elem_of_okeys, Hk. done. Qed.

Lemma expand_loop_keys recurse old_key ns com :
  expand_safe recurse → is_Some (oget com old_key) →
  okeys (expand_loop recurse old_key ns com).1 = okeys com ∧
  ((expand_loop recurse old_key ns com).2 = Ok () ∨
   (expand_loop recurse old_key ns com).2 = Raise RecursionError).
Proof.
  intros Hrec. revert com. induction ns as [|key ns IH]; intros com Hold.
  - cbn. auto.
  - cbn [expand_loop]. destruct (oget com key) as [lk|] eqn:Hkey; [|cbn; auto].
    destruct Hold as [lo Hlo]. rewrite Hlo.
    destruct (decide (lk = lo)); [apply IH; eauto|].
    destruct (decide (lk < lo)%nat).
    + destruct (IH (oset com old_key lk)) as [Hk Hs].
      { rewrite oget_oset_eq. eauto. }
      rewrite Hk, okeys_oset_Some by eauto. done.
    + destruct (Hrec key (oset com key lo)) as [Hk Hs].
      { rewrite oget_oset_eq. eauto. }
      rewrite okeys_oset_Some in Hk by eauto.
      destruct (recurse key (oset com key lo)) as [com' [[]|e]] eqn:Hr;
        cbn in Hk, Hs; cbv beta iota.
      * destruct (IH com') as [Hk' Hs'].
        { apply (oget_same_keys com); eauto. }
        change (okeys com' = okeys com) in Hk. split; [congruence|done].
      * cbn. split; [done|]. destruct Hs as [Hs|Hs]; [done|]. by right.
Qed.

Lemma expand_keys depth : expand_safe (expand depth).
Proof.
  induction depth as [|depth IH]; intros key com Hkey.
  - cbn. auto.
  - cbn [expand]. by apply expand_loop_keys.
Qed.

Lemma connected_components_body_ok com key :
  is_Some (oget com key) →
  ∃ com', connected_components_body recursion_limit com key = Ok com' ∧
          okeys com' = okeys com.
Proof.
  intros Hkey. unfold connected_components_body.
  destruct (expand_keys recursion_limit key com Hkey) as [Hk Hs].
  destruct (expand recursion_limit key com) as [com' st]. cbn in Hk, Hs.
  exists com'. destruct Hs as [->| ->]; done.
Qed.

Lemma connected_components_loop_ok ks com :
  (∀ k, k ∈ ks → k ∈ okeys com) →
  ∃ com', for_each ks (connected_components_body recursion_limit) com = Ok com' ∧
          okeys com' = okeys com.
Proof.
  revert com. induction ks as [|k ks IH]; intros com Hks.
  - by exists com.
  - destruct (connected_components_body_ok com k) as (com1 & H1 & Hk1).
    { apply elem_of_okeys, Hks. by left. }
    destruct (IH com1) as (com' & H' & Hk').
    { intros k' Hk''. rewrite Hk1. apply Hks. by right. }
    exists com'. cbn [for_each]. rewrite H1. cbn [mbind result_bind].
    split; [done|]. by rewrite Hk'.
Qed.

Lemma connected_components_ok com :
  ∃ com', connected_components recursion_limit com = Ok com' ∧
          okeys com' = okeys com.
Proof. by apply connected_components_loop_ok. Qed.


Context (joinedcells_nonzero : joinedcells args ≠ 0).

Lemma key_scale_body_ok m ksr key :
  is_Some (canopy m !! key) → is_Some (ground m !! key) →
  (∀ kv, kv ∈ ksr → ∀ s, s ∈ kv.2 → eligible args m s) →
  ∃ ksr', key_scale_body args m ksr key = Ok ksr' ∧
          ∀ kv, kv ∈ ksr' → ∀ s, s ∈ kv.2 → eligible args m s.
Proof.
  intros [c Hc] [g Hg] Hinv. unfold key_scale_body, truediv.
  rewrite Hc, Hg. cbn [getitem mbind result_bind].
  destruct (decide (slicedepth args < c - g)) as [Hel|_]; [|by exists ksr].
  repeat (rewrite decide_False by done; cbn [mbind result_bind]).
  set (cc_key := XY _ _).
  assert (Hkey : eligible args m key) by (exists c, g; done).
  destruct (oget ksr cc_key) as [v|] eqn:Hv; eexists; (split; [done|]).
  - intros kv [ ->|Hin]%elem_of_oset s Hs; [|by apply (Hinv kv)].
    cbn in Hs. apply elem_of_union in Hs as [Hs| ->%elem_of_singleton];
      [|done].
    apply (Hinv (cc_key, v)); [by apply oget_Some_elem_of|done].
  - intros kv [ ->|Hin]%elem_of_oset s Hs; [|by apply (Hinv kv)].
    cbn in Hs. by apply elem_of_singleton in Hs as ->.
Qed.

Lemma key_scale_loop_ok m ks ksr :
  (∀ k, k ∈ ks → is_Some (canopy m !! k) ∧ is_Some (ground m !! k)) →
  (∀ kv, kv ∈ ksr → ∀ s, s ∈ kv.2 → eligible args m s) →
  ∃ ksr', for_each ks (key_scale_body args m) ksr = Ok ksr' ∧
          ∀ kv, kv ∈ ksr' → ∀ s, s ∈ kv.2 → eligible args m s.
Proof.
  revert ksr. induction ks as [|k ks IH]; intros ksr Hks Hinv.
  - by exists ksr.
  - destruct (Hks k) as [Hc Hg]; [by left|].
    destruct (key_scale_body_ok m ksr k Hc Hg Hinv) as (ksr1 & H1 & Hinv1).
    destruct (IH ksr1) as (ksr' & H' & Hinv'); [|done|].
    { intros k' Hk'. apply Hks. by right. }
    exists ksr'. cbn [for_each]. rewrite H1. done.
Qed.

Lemma copy_labels_inner_ok (trees : odict XY_Coord nat) k l ss
    (out : gmap XY_Coord nat) :
  oget trees k = Some l →
  ∃ out',
    for_each ss (λ out s, l ← getitem (oget trees k); Ok (<[s := l]> out)) out
      = Ok out' ∧
    ∀ s, s ∈ dom out' ↔ s ∈ dom out ∨ s ∈ ss.
Proof.
  intros Hl. rewrite Hl. revert out. induction ss as [|s0 ss IH]; intros out.
  - exists out. split; [done|]. intros s. rewrite elem_of_nil. tauto.
  - cbn [for_each getitem mbind result_bind].
    destruct (IH (<[s0 := l]> out)) as (out' & H' & Hdom).
    exists out'. split; [done|]. intros s.
    rewrite Hdom, dom_insert, elem_of_union, elem_of_singleton, elem_of_cons.
    tauto.
Qed.

Lemma copy_labels_ok (trees : odict XY_Coord nat) kv l
    (out : gmap XY_Coord nat) :
  oget trees kv.1 = Some l →
  ∃ out', copy_labels trees out kv = Ok out' ∧
          ∀ s, s ∈ dom out' ↔ s ∈ dom out ∨ s ∈ kv.2.
Proof.
  intros Hl. unfold copy_labels.
  destruct (copy_labels_inner_ok trees kv.1 l (elements kv.2) out Hl)
    as (out' & H' & Hdom).
  exists out'. split; [done|]. intros s. by rewrite Hdom, elem_of_elements.
Qed.

Lemma copy_labels_loop_ok (trees : odict XY_Coord nat)
    (ksr : odict XY_Coord (gset XY_Coord)) (out : gmap XY_Coord nat) :
  (∀ kv, kv ∈ ksr → is_Some (oget trees kv.1)) →
  ∃ out', for_each ksr (copy_labels trees) out = Ok out' ∧
          ∀ s, s ∈ dom out' ↔ s ∈ dom out ∨ ∃ kv, kv ∈ ksr ∧ s ∈ kv.2.
Proof.
  revert out. induction ksr as [|kv0 ksr IH]; intros out Hks.
  - exists out. split; [done|]. intros s. split; [by left|].
    intros [?|(kv & []%elem_of_nil & _)]. done.
  - destruct (Hks kv0) as [l Hl]; [by left|].
    destruct (copy_labels_ok trees kv0 l out Hl) as (out1 & H1 & Hdom1).
    destruct (IH out1) as (out' & H' & Hdom').
    { intros kv Hkv. apply Hks. by right. }
    exists out'. cbn [for_each]. rewrite H1.
    split; [done|]. intros s. rewrite Hdom', Hdom1. split.
    + intros [[?|?]|(kv & Hkv & Hs)]; [by left| |].
      * right. exists kv0. split; [by left|done].
      * right. exists kv. split; [by right|done].
    + intros [?|(kv & [ ->|Hkv]%elem_of_cons & Hs)]; [by left; left| |].
      * left. by right.
      * right. by exists kv.
Qed.

Lemma fst_imap_pair {A B} (g : nat → A → B) (l : list A) :
  (imap (λ i k, (k, g i k)) l).*1 = l.
Proof.
  revert g. induction l as [|k l IH]; intros g; [done|].
  cbn. f_equal. exact (IH (λ i, g (S i))).
Qed.

Lemma okeys_enumerate {V} (d : odict XY_Coord V) :
  okeys (imap (λ i k, (k, i)) (okeys d)) = okeys d.
Proof. apply (fst_imap_pair (λ i _, i)). Qed.

(** [_tree_components] returns, and labels eligible cells only. *)
Lemma tree_components_ok m :
  (∀ k, k ∈ okeys (density m) →
        is_Some (canopy m !! k) ∧ is_Some (ground m !! k)) →
  ∃ t, _tree_components args recursion_limit m = Ok t ∧
       ∀ k, k ∈ dom t → eligible args m k.
Proof.
  intros Hks. unfold _tree_components.
  destruct (key_scale_loop_ok m (okeys (density m)) []) as (ksr & Hksr & Hel);
    [done|by intros kv []%elem_of_nil|].
  rewrite Hksr. cbn [mbind result_bind].
  destruct (connected_components_ok (imap (λ i k, (k, i)) (okeys ksr)))
    as (trees & Htrees & Hkeys).
  rewrite Htrees. cbn [mbind result_bind]. rewrite okeys_enumerate in Hkeys.
  destruct (copy_labels_loop_ok trees ksr ∅) as (t & Ht & Hdom).
  { intros kv Hkv. apply elem_of_okeys. rewrite Hkeys.
    unfold okeys. apply list_elem_of_fmap. by exists kv. }
  exists t. split; [done|]. intros k [Hk|(kv & Hkv & Hs)]%Hdom.
  - by rewrite dom_empty in Hk.
  - by apply (Hel kv).
Qed.

End segmenter_facts.

(** ** The first pass as a whole *)

Section update_spatial_facts.
Context (args : Args) (recursion_limit : nat).
Context (cellsize_nonzero : cellsize args ≠ 0).
Context (joinedcells_nonzero : joinedcells args ≠ 0).

(** The first pass returns; smoothing rewrites ground heights only. *)
Lemma update_spatial_ok f :
  ∃ m1 m,
    update_spatial_loop args (new_MapObj f) = Ok m1 ∧
    update_spatial args recursion_limit (new_MapObj f) = Ok m ∧
    spatial_inv args (points f) m1 ∧
    smooth_ground args (ground m1) = Ok (ground m) ∧
    dom (ground m) = dom (ground m1) ∧
    canopy m = canopy m1 ∧ density m = density m1 ∧
    filtered_density m = filtered_density m1 ∧
    file m = f ∧ colours m = ∅ ∧ header m = names f ∧ utm m = offset f ∧
    ∀ k, k ∈ dom (trees m) → eligible args m k.
Proof.
  destruct (update_spatial_loop_ok args cellsize_nonzero f)
    as (m1 & Hm1 & Hinv & Hf & Hc & Ht & Hh & Hu).
  destruct (smooth_ground_ok args (ground m1)) as (g & Hg & Hdom).
  destruct (tree_components_ok args recursion_limit joinedcells_nonzero
              (set_ground g m1)) as (t & Ht' & Hel).
  { intros k Hk%elem_of_okeys. cbn.
    destruct (spatial_inv_dom args (points f) m1 k Hinv) as (Hdg & Hdc & _).
    split; [by apply Hdc|].
    apply elem_of_dom. rewrite Hdom. apply elem_of_dom. by apply Hdg. }
  exists m1, (set_trees t (set_ground g m1)). split; [done|]. split.
  { unfold update_spatial. rewrite Hm1. cbn [mbind result_bind].
    rewrite Hg. cbn [mbind result_bind]. rewrite Ht'. done. }
  cbn. repeat (split; [done|]). exact Hel.
Qed.

(** C5 (amended): the first pass returns a map in which every occupied
    cell has a ground and a canopy height; the ground height read from the
    points is at most the canopy height, so after smoothing
    [ground ≤ canopy] holds for every cell whose ground height smoothing
    left as it was. *)
Theorem ground_le_canopy_after_pass1 f :
  ∃ m1 m,
    update_spatial_loop args (new_MapObj f) = Ok m1 ∧
    update_spatial args recursion_limit (new_MapObj f) = Ok m ∧
    (∀ c, is_Some (oget (density m) c) →
          is_Some (ground m !! c) ∧ is_Some (canopy m !! c)) ∧
    (∀ c g cz, ground m1 !! c = Some g → canopy m1 !! c = Some cz → g ≤ cz) ∧
    (∀ c g cz, ground m !! c = Some g → canopy m !! c = Some cz →
               ground m1 !! c = Some g → g ≤ cz).
Proof.
  destruct (update_spatial_ok f)
    as (m1 & m & Hm1 & Hm & Hinv & Hg & Hdom & Hc & Hd & _).
  exists m1, m. do 2 (split; [done|]).
  assert (Hle : ∀ c g cz,
    ground m1 !! c = Some g → canopy m1 !! c = Some cz → g ≤ cz).
  { intros c g cz.
    by apply (spatial_inv_ground_le_canopy args (points f) m1). }
  split; [|split; [done|]].
  - intros c Hocc. rewrite Hd in Hocc.
    destruct (spatial_inv_dom args (points f) m1 c Hinv) as (Hdg & Hdc & _).
    split.
    + apply elem_of_dom. rewrite Hdom. apply elem_of_dom. by apply Hdg.
    + rewrite Hc. by apply Hdc.
  - intros c g cz _ Hcz Hg1. rewrite Hc in Hcz. by apply (Hle c).
Qed.
End update_spatial_facts.

(** C5 as stated fails: smoothing sets the ground of the middle cell of
    [pit_file] to 12, above its canopy at 0. *)
Lemma smoothing_lifts_ground_above_canopy :
  ∃ m, update_spatial example_args 1000 (new_MapObj pit_file) = Ok m ∧
       ground m !! XY 0 0 = Some (Qc_of_Z 12) ∧
       canopy m !! XY 0 0 = Some 0 ∧
       ¬ (Qc_of_Z 12 ≤ 0).
Proof.
  eexists. split; [vm_compute; reflexivity|].
  split; [|split].
  - apply (bool_decide_unpack _). vm_compute. exact I.
  - apply (bool_decide_unpack _). vm_compute. exact I.
  - apply (bool_decide_unpack _). vm_compute. exact I.
Qed.

Lemma ground_le_canopy_after_pass1_witness :
  ∃ m1 m,
    update_spatial_loop example_args (new_MapObj pit_file) = Ok m1 ∧
    update_spatial example_args 1000 (new_MapObj pit_file) = Ok m ∧
    (∀ c, is_Some (oget (density m) c) →
          is_Some (ground m !! c) ∧ is_Some (canopy m !! c)) ∧
    (∀ c g cz, ground m1 !! c = Some g → canopy m1 !! c = Some cz → g ≤ cz) ∧
    (∀ c g cz, ground m !! c = Some g → canopy m !! c = Some cz →
               ground m1 !! c = Some g → g ≤ cz).
Proof.
  apply (ground_le_canopy_after_pass1 example_args 1000); by vm_compute.
Defined.

(** ** The second pass *)

Section colour_facts.
Context (args : Args).
Context (cellsize_nonzero : cellsize args ≠ 0).

Lemma is_ground_ok m p g :
  ground m !! cell args p = Some g →
  is_ground args m p = Ok (bool_decide (pz p - g < grounddepth args)).
Proof.
  intros Hg. unfold is_ground. rewrite coords_ok by done.
  cbn [mbind result_bind]. by rewrite Hg.
Qed.

Lemma is_lowest_ok m p g :
  ground m !! cell args p = Some g →
  is_lowest args m p = Ok (bool_decide (pz p = g)).
Proof.
  intros Hg. unfold is_lowest. rewrite coords_ok by done.
  cbn [mbind result_bind]. by rewrite Hg.
Qed.

Lemma fst_fmap_pair {A B} (g : A → B) (l : list A) :
  ((λ k, (k, g k)) <$> l).*1 = l.
Proof. induction l as [|a l IH]; [done|]. cbn. by rewrite IH. Qed.

Lemma p_cols_lookup m p k :
  is_Some (p_cols m p !! k) ↔ k ∈ colour_names (header m).
Proof.
  unfold p_cols. rewrite <-elem_of_dom, dom_list_to_map_L, elem_of_list_to_set.
  by rewrite fst_fmap_pair.
Qed.

(** The loop [for k, v in p_cols.items(): self.colours[idx][k] += v]. *)
Lemma colour_sum_loop_ok idx kvs m c :
  colours m !! idx = Some c →
  (∀ kv, kv ∈ kvs → is_Some (c !! kv.1)) →
  ∃ m' c',
    for_each kvs
      (λ self (kv : string * Qc),
         c ← getitem (colours self !! idx);
         t ← getitem (c !! kv.1);
         Ok (set_colours (<[idx := <[kv.1 := t + kv.2]> c]> (colours self))
               self)) m = Ok m' ∧
    colours m' = <[idx := c']> (colours m) ∧
    (∀ k, is_Some (c' !! k) ↔ is_Some (c !! k)) ∧
    ground m' = ground m ∧ canopy m' = canopy m ∧ density m' = density m ∧
    filtered_density m' = filtered_density m ∧
    trees m' = trees m ∧ file m' = file m ∧ header m' = header m ∧
    utm m' = utm m.
Proof.
  revert m c. induction kvs as [|kv kvs IH]; intros m c Hc Hks.
  - exists m, c. split; [done|]. by rewrite insert_id.
  - destruct (Hks kv) as [t Ht]; [by left|].
    cbn [for_each]. rewrite Hc. cbn [getitem mbind result_bind].
    rewrite Ht. cbn [getitem mbind result_bind].
    set (c1 := <[kv.1 := t + kv.2]> c).
    set (m1 := set_colours _ m).
    assert (Hdom1 : ∀ k, is_Some (c1 !! k) ↔ is_Some (c !! k)).
    { intros k. unfold c1. destruct (decide (kv.1 = k)) as [<-|Hne].
      - rewrite lookup_insert_eq. split; eauto.
      - by rewrite lookup_insert_ne. }
    destruct (IH m1 c1) as (m' & c' & Hm' & Hcol & Hdom & Hrest).
    { unfold m1. cbn. by rewrite lookup_insert_eq. }
    { intros kv' Hkv'. apply Hdom1, Hks. by right. }
    exists m', c'. split; [done|]. split.
    { rewrite Hcol. unfold m1. cbn. by rewrite insert_insert_eq. }
    split; [intros k; by rewrite Hdom|]. exact Hrest.
Qed.

Lemma length_filter_snoc {A} (P : A → Prop) {decP : ∀ a, Decision (P a)}
    (l : list A) (a : A) :
  length (filter P (l ++ [a])) =
  (length (filter P l) + (if decide (P a) then 1 else 0))%nat.
Proof.
  rewrite filter_app, length_app, filter_cons, filter_nil.
  by destruct (decide (P a)).
Qed.

Lemma colours_inv_step m0 qs m p :
  colours_inv args m0 qs m →
  is_Some (ground m0 !! cell args p) →
  is_Some (filtered_density m0 !! cell args p) →
  ∃ m', update_colours_body args m p = Ok m' ∧
        colours_inv args m0 (qs ++ [p]) m'.
Proof.
  intros (Hg & Hc & Hd & Ht & Hf & Hh & Hu & Hfd & Hcol & Hnames)
    [g Hg0] [fd0 Hfd0].
  unfold update_colours_body.
  rewrite (is_ground_ok m p g) by (by rewrite Hg).
  cbn [mbind result_bind].
  assert (Hab : above_ground args (ground m0) p ↔
                ¬ (pz p - g < grounddepth args)).
  { unfold above_ground. by rewrite Hg0. }
  set (c0 := cell args p) in *.
  destruct (bool_decide (pz p - g < grounddepth args)) eqn:Hb.
  - (* a ground point: skipped *)
    apply bool_decide_eq_true in Hb.
    exists m. split; [done|]. repeat (split; [done|]).
    assert (Hno : ∀ c, ¬ counted args (ground m0) c p).
    { intros c [_ Hp%Hab]. done. }
    split; [|split; [|done]].
    + intros c. rewrite Hfd, length_filter_snoc.
      rewrite decide_False by apply Hno. by rewrite Nat.add_0_r.
    + intros c. rewrite Hcol. split.
      * intros (q & Hq & Hcq). exists q. split; [|done].
        apply elem_of_app. by left.
      * intros (q & [Hq| ->%list_elem_of_singleton]%elem_of_app & Hcq).
        -- by exists q.
        -- by destruct (Hno c).
  - (* a counted point *)
    apply bool_decide_eq_false in Hb. rewrite coords_ok by done.
    cbn [mbind result_bind]. fold c0.
    assert (Hfdm : filtered_density m !! c0 =
                   Some (fd0 + length (filter (counted args (ground m0) c0) qs))%nat).
    { by rewrite Hfd, Hfd0. }
    rewrite Hfdm. cbn [getitem mbind result_bind].
    set (fd' := <[c0 := _]> (filtered_density m)).
    assert (Hfd' : ∀ c, fd' !! c =
        (λ n, n + length (filter (counted args (ground m0) c) (qs ++ [p])))%nat
          <$> filtered_density m0 !! c).
    { intros c. unfold fd'. rewrite length_filter_snoc.
      destruct (decide (c0 = c)) as [<-|Hne].
      - rewrite lookup_insert_eq, Hfd0. cbn.
        rewrite decide_True by (split; [done|by apply Hab]). f_equal. lia.
      - rewrite lookup_insert_ne, Hfd by done.
        rewrite decide_False by (intros [? _]; done).
        by rewrite Nat.add_0_r. }
    assert (Hcounted : counted args (ground m0) c0 p)
      by (split; [done|by apply Hab]).
    assert (Hcol' : ∀ (cs : gmap XY_Coord (gmap string Qc)) v,
      (∀ c, c ≠ c0 → cs !! c = colours m !! c) → cs !! c0 = Some v →
      ∀ c, is_Some (cs !! c) ↔
           ∃ q, q ∈ qs ++ [p] ∧ counted args (ground m0) c q).
    { intros cs v Hcs Hv c. destruct (decide (c = c0)) as [->|Hne].
      - rewrite Hv. split; [|eauto]. intros _. exists p. split; [|done].
        apply elem_of_app. right. by left.
      - rewrite Hcs, Hcol by done. split.
        + intros (q & Hq & Hcq). exists q. split; [|done].
          apply elem_of_app. by left.
        + intros (q & [Hq| ->%list_elem_of_singleton]%elem_of_app & Hcq).
          * by exists q.
          * destruct Hcq as [Hcq _]. by destruct Hne. }
    set (m1 := set_filtered_density fd' m).
    change (colours m1) with (colours m).
    destruct (colours m !! c0) as [cols|] eqn:Hcols.
    + (* the cell has totals already *)
      destruct (colour_sum_loop_ok c0 (map_to_list (p_cols m p)) m1 cols)
        as (m' & c' & Hm' & Hcolm' & Hdom' & Hg' & Hc' & Hd' & Hfd'' & Ht' &
            Hf' & Hh' & Hu'); [done| |].
      { intros [k v] Hkv%elem_of_map_to_list. cbn.
        apply (Hnames c0 cols k Hcols). rewrite <-Hh.
        apply (p_cols_lookup m p k). by rewrite Hkv. }
      exists m'. rewrite Hm'. cbn [mbind result_bind]. split; [done|].
      unfold colours_inv.
      rewrite Hg', Hc', Hd', Hfd'', Ht', Hf', Hh', Hu', Hcolm'. cbn.
      do 7 (split; [done|]). split; [exact Hfd'|]. split.
      * apply (Hcol' _ c'); [|by rewrite lookup_insert_eq].
        intros c Hne. by rewrite lookup_insert_ne.
      * intros c cols' k. destruct (decide (c0 = c)) as [<-|Hne].
        -- rewrite lookup_insert_eq. intros [= <-]. rewrite Hdom'.
           by apply (Hnames c0).
        -- rewrite lookup_insert_ne by done. apply Hnames.
    + (* the first counted point of the cell *)
      eexists. split; [done|]. unfold colours_inv. cbn.
      do 7 (split; [done|]). split; [exact Hfd'|]. split.
      * apply (Hcol' _ (p_cols m p));
          [|by rewrite lookup_insert_eq].
        intros c Hne. by rewrite lookup_insert_ne.
      * intros c cols' k. destruct (decide (c0 = c)) as [<-|Hne].
        -- rewrite lookup_insert_eq. intros [= <-]. rewrite <-Hh.
           apply (p_cols_lookup m p k).
        -- rewrite lookup_insert_ne by done. apply Hnames.
Qed.

Lemma colours_inv_loop m0 ps qs m :
  colours_inv args m0 qs m →
  (∀ p, p ∈ ps → is_Some (ground m0 !! cell args p) ∧
                 is_Some (filtered_density m0 !! cell args p)) →
  ∃ m', for_each ps (update_colours_body args) m = Ok m' ∧
        colours_inv args m0 (qs ++ ps) m'.
Proof.
  revert qs m. induction ps as [|p ps IH]; intros qs m Hinv Hps.
  - exists m. by rewrite app_nil_r.
  - destruct (Hps p) as [Hg Hfd]; [by left|].
    destruct (colours_inv_step m0 qs m p Hinv Hg Hfd) as (m1 & Hm1 & Hinv1).
    destruct (IH (qs ++ [p]) m1 Hinv1) as (m' & Hm' & Hinv').
    { intros q Hq. apply Hps. by right. }
    exists m'. cbn [for_each]. rewrite Hm1. cbn [mbind result_bind].
    by rewrite <-app_assoc in Hinv'.
Qed.

Lemma colours_inv_start m0 : colours m0 = ∅ → colours_inv args m0 [] m0.
Proof.
  intros Hc. repeat (split; [done|]). split; [|split].
  - intros c. rewrite filter_nil. cbn.
    destruct (filtered_density m0 !! c); cbn; [f_equal; lia|done].
  - intros c. rewrite Hc, lookup_empty. split; [by intros [? ?]|].
    by intros (p & []%elem_of_nil & _).
  - intros c cols k. by rewrite Hc, lookup_empty.
Qed.

End colour_facts.

(** ** Raw and filtered density *)

Section density_facts.
Context (args : Args) (recursion_limit : nat).
Context (cellsize_nonzero : cellsize args ≠ 0).
Context (joinedcells_nonzero : joinedcells args ≠ 0).

Lemma elem_of_cell_heights c ps z :
  z ∈ cell_heights args c ps ↔ ∃ p, p ∈ ps ∧ cell args p = c ∧ pz p = z.
Proof.
  unfold cell_heights. rewrite list_elem_of_fmap. split.
  - intros (p & -> & [Hc Hp]%list_elem_of_filter). by exists p.
  - intros (p & Hp & Hc & <-). exists p. split; [done|].
    by apply list_elem_of_filter.
Qed.

Lemma cell_heights_nonempty c ps p :
  p ∈ ps → cell args p = c → cell_heights args c ps ≠ [].
Proof.
  intros Hp Hc Hnil.
  assert (Hin : pz p ∈ cell_heights args c ps)
    by (apply elem_of_cell_heights; by exists p).
  rewrite Hnil in Hin. by apply elem_of_nil in Hin.
Qed.

Lemma sublist_filter_mono {A} (P : A → Prop) {decP : ∀ a, Decision (P a)}
    (l1 l2 : list A) :
  l1 `sublist_of` l2 → filter P l1 `sublist_of` filter P l2.
Proof.
  induction 1 as [|a l1 l2 _ IH|a l1 l2 _ IH].
  - done.
  - rewrite !filter_cons. destruct (decide (P a)); [by constructor|done].
  - rewrite filter_cons. destruct (decide (P a)); [by constructor|done].
Qed.

Lemma length_filter_impl {A} (P Q : A → Prop) {decP : ∀ a, Decision (P a)}
    {decQ : ∀ a, Decision (Q a)} (l : list A) :
  (∀ a, P a → Q a) →
  (length (filter P l) ≤ length (filter Q l))%nat ∧
  ((∃ a, a ∈ l ∧ Q a ∧ ¬ P a) →
   (length (filter P l) < length (filter Q l))%nat).
Proof.
  intros HPQ. induction l as [|a l [IHle IHlt]].
  - split; [done|]. by intros (a & []%elem_of_nil & _).
  - rewrite !filter_cons.
    destruct (decide (P a)) as [HP|HP].
    + rewrite decide_True by auto. cbn. split; [lia|].
      intros (b & [->|Hb]%elem_of_cons & HQ & HnP); [done|].
      assert (length (filter P l) < length (filter Q l))%nat; [|lia].
      apply IHlt. by exists b.
    + destruct (decide (Q a)) as [HQ|HQ]; cbn.
      * split; [lia|]. intros _. lia.
      * split; [done|].
        intros (b & [->|Hb]%elem_of_cons & HQ' & HnP); [done|].
        apply IHlt. by exists b.
Qed.

(** After the first pass every point of the file lies in a cell that has
    a ground height and a filtered density. *)
Lemma pass1_cells f m1 m p :
  spatial_inv args (points f) m1 →
  dom (ground m) = dom (ground m1) →
  filtered_density m = filtered_density m1 →
  p ∈ points f →
  is_Some (ground m !! cell args p) ∧
  is_Some (filtered_density m !! cell args p).
Proof.
  intros Hinv Hdom Hfd Hp.
  destruct (Hinv (cell args p)) as [_ Hcons].
  destruct Hcons as (_ & Hf & g & _ & Hg & _);
    [by apply (cell_heights_nonempty _ _ p)|].
  split.
  - apply elem_of_dom. rewrite Hdom. apply elem_of_dom. eauto.
  - rewrite Hfd. eauto.
Qed.

(** C6 (amended): while and after the first pass the filtered density of
    a cell is 1, at most its raw density.  While and after the second
    pass, over any part [qs] of the stream of the first, the filtered
    density is at most the raw density plus 1, and at most the raw density
    for a cell with a point that [is_ground] classifies as ground. *)
Theorem filtered_density_bound f ps qs :
  qs `sublist_of` points f →
  ∃ m1 m m2,
    for_each ps (update_spatial_body args) (new_MapObj f) = Ok m1 ∧
    (∀ c d n, oget (density m1) c = Some d →
              filtered_density m1 !! c = Some n → (n ≤ d)%nat) ∧
    update_spatial args recursion_limit (new_MapObj f) = Ok m ∧
    (∀ c d n, oget (density m) c = Some d →
              filtered_density m !! c = Some n → (n ≤ d)%nat) ∧
    for_each qs (update_colours_body args) m = Ok m2 ∧
    (∀ c d n, oget (density m2) c = Some d →
              filtered_density m2 !! c = Some n →
              (n ≤ d + 1)%nat ∧
              ((∃ p, p ∈ points f ∧ cell args p = c ∧
                     ¬ above_ground args (ground m) p) → (n ≤ d)%nat)).
Proof.
  intros Hsub.
  assert (Hpass1 : ∀ rs m', spatial_inv args rs m' →
    ∀ c d n, oget (density m') c = Some d →
             filtered_density m' !! c = Some n →
             n = 1%nat ∧ d = length (cell_heights args c rs) ∧
             cell_heights args c rs ≠ []).
  { intros rs m' Hinv c d n Hd Hn. destruct (Hinv c) as [Hnil Hcons].
    destruct (decide (cell_heights args c rs = [])) as [Hzs|Hzs].
    - destruct (Hnil Hzs) as (Hd' & _). congruence.
    - destruct (Hcons Hzs) as (Hd' & Hn' & _).
      split; [congruence|]. split; [congruence|done]. }
  assert (Hpos : ∀ zs : list Qc, zs ≠ [] → (1 ≤ length zs)%nat).
  { intros [|z zs] Hzs; [done|cbn; lia]. }
  destruct (spatial_inv_loop args cellsize_nonzero ps [] (new_MapObj f))
    as (m1' & Hm1' & Hinv1' & _); [apply spatial_inv_new|].
  destruct (update_spatial_ok args recursion_limit cellsize_nonzero
              joinedcells_nonzero f)
    as (m1 & m & Hm1 & Hm & Hinv & Hsm & Hdom & Hc & Hd & Hfd & Hf & Hcol & _).
  destruct (colours_inv_loop args cellsize_nonzero m qs [] m)
    as (m2 & Hm2 & Hinv2); [by apply colours_inv_start| |].
  { intros p Hp. apply (pass1_cells f m1); try done.
    eapply elem_of_sublist; eauto. }
  exists m1', m, m2. split; [done|]. split.
  { intros c d n Hd' Hn'.
    destruct (Hpass1 _ _ Hinv1' c d n Hd' Hn') as (-> & -> & Hne).
    by apply Hpos. }
  split; [done|]. split.
  { intros c d n Hd' Hn'. rewrite Hd in Hd'. rewrite Hfd in Hn'.
    destruct (Hpass1 _ _ Hinv c d n Hd' Hn') as (-> & -> & Hne).
    by apply Hpos. }
  split; [done|].
  intros c d n Hd' Hn'.
  destruct Hinv2 as (Hg2 & _ & Hd2 & _ & _ & _ & _ & Hfd2 & _).
  rewrite Hd2, Hd in Hd'. rewrite Hfd2, Hfd in Hn'.
  destruct (filtered_density m1 !! c) as [n1|] eqn:Hn1; [|done].
  destruct (Hpass1 _ _ Hinv c d n1 Hd' Hn1) as (-> & -> & Hne).
  cbn in Hn'. injection Hn' as <-.
  assert (Hlen : length (cell_heights args c (points f)) =
                 length (filter (λ p, cell args p = c) (points f))).
  { unfold cell_heights. by rewrite length_fmap. }
  assert (Hq : (length (filter (counted args (ground m) c) qs) ≤
                length (filter (counted args (ground m) c) (points f)))%nat).
  { by apply sublist_length, sublist_filter_mono. }
  destruct (length_filter_impl (counted args (ground m) c)
              (λ p, cell args p = c) (points f)) as [Hle Hlt];
    [by intros p [? _]|].
  cbn [app]. rewrite Hlen. split; [lia|].
  intros (p & Hp & Hcp & Hnot).
  assert (length (filter (counted args (ground m) c) (points f)) <
          length (filter (λ p, cell args p = c) (points f)))%nat; [|lia].
  apply Hlt. exists p. split; [done|]. split; [done|].
  intros [_ Hab]. done.
Qed.
End density_facts.

Lemma filtered_density_bound_witness :
  ∃ m1 m m2,
    for_each (points peak_file) (update_spatial_body example_args)
      (new_MapObj peak_file) = Ok m1 ∧
    (∀ c d n, oget (density m1) c = Some d →
              filtered_density m1 !! c = Some n → (n ≤ d)%nat) ∧
    update_spatial example_args 1000 (new_MapObj peak_file) = Ok m ∧
    (∀ c d n, oget (density m) c = Some d →
              filtered_density m !! c = Some n → (n ≤ d)%nat) ∧
    for_each (points peak_file) (update_colours_body example_args) m = Ok m2 ∧
    (∀ c d n, oget (density m2) c = Some d →
              filtered_density m2 !! c = Some n →
              (n ≤ d + 1)%nat ∧
              ((∃ p, p ∈ points peak_file ∧ cell example_args p = c ∧
                     ¬ above_ground example_args (ground m) p) →
               (n ≤ d)%nat)).
Proof.
  apply (filtered_density_bound example_args 1000); [by vm_compute..|done].
Defined.

(** C6 as stated fails: smoothing lowers the ground of the middle cell of
    [peak_file] to 12, its only point is then counted by the second pass,
    and the cell ends with filtered density 2 and raw density 1. *)
Lemma filtered_density_exceeds_density :
  ∃ m, MapObj_init example_args 1000 peak_file true = Ok m ∧
       oget (density m) (XY 0 0) = Some 1%nat ∧
       filtered_density m !! XY 0 0 = Some 2%nat.
Proof. eexists. split; [vm_compute; reflexivity|]. by vm_compute. Qed.

(** ** The sparse cloud *)

Section sparse_facts.
Context (args : Args) (recursion_limit : nat).
Context (cellsize_nonzero : cellsize args ≠ 0).
Context (joinedcells_nonzero : joinedcells args ≠ 0).

Lemma keep_point_ok m kept p :
  is_Some (ground m !! cell args p) →
  keep_point args m kept p =
  Ok (if decide (in_sparse args (ground m) p) then kept ++ [p] else kept).
Proof.
  intros [g Hg]. unfold keep_point.
  rewrite (is_ground_ok args cellsize_nonzero m p g Hg).
  cbn [mbind result_bind].
  assert (Hab : above_ground args (ground m) p ↔
                ¬ (pz p - g < grounddepth args)).
  { unfold above_ground. by rewrite Hg. }
  assert (Hlow : lowest args (ground m) p ↔ pz p = g).
  { unfold lowest. rewrite Hg. split; [by intros [= ->]|by intros ->]. }
  destruct (bool_decide (pz p - g < grounddepth args)) eqn:Hb; cbn [negb].
  - apply bool_decide_eq_true in Hb.
    rewrite (is_lowest_ok args cellsize_nonzero m p g Hg).
    cbn [mbind result_bind].
    destruct (bool_decide (pz p = g)) eqn:Hl.
    + apply bool_decide_eq_true in Hl.
      rewrite decide_True; [done|]. right. by apply Hlow.
    + apply bool_decide_eq_false in Hl.
      rewrite decide_False; [done|]. intros [Ha%Hab|Hl'%Hlow]; done.
  - apply bool_decide_eq_false in Hb.
    rewrite decide_True; [done|]. left. by apply Hab.
Qed.

Lemma sparse_loop_ok m ps kept :
  (∀ p, p ∈ ps → is_Some (ground m !! cell args p)) →
  for_each ps (keep_point args m) kept =
  Ok (kept ++ filter (in_sparse args (ground m)) ps).
Proof.
  revert kept. induction ps as [|p ps IH]; intros kept Hps.
  - cbn. by rewrite app_nil_r.
  - cbn [for_each]. rewrite keep_point_ok by (apply Hps; by left).
    cbn [mbind result_bind]. rewrite IH by (intros q Hq; apply Hps; by right).
    rewrite filter_cons. destruct (decide (in_sparse args (ground m) p)).
    + by rewrite <-app_assoc.
    + done.
Qed.

Lemma save_sparse_cloud_ok m :
  (∀ p, p ∈ points (file m) → is_Some (ground m !! cell args p)) →
  save_sparse_cloud args m =
  Ok (set_file {| names := header m; offset := utm m;
                  points := filter (in_sparse args (ground m))
                              (points (file m)) |} m).
Proof.
  intros Hps. unfold save_sparse_cloud. by rewrite sparse_loop_ok.
Qed.

(** A cell of the sparse cloud keeps its lowest point, and its highest
    when that is kept. *)
Lemma sparse_heights ps m1 m1' c :
  spatial_inv args ps m1 →
  spatial_inv args (filter (in_sparse args (ground m1)) ps) m1' →
  ground m1' !! c = ground m1 !! c ∧
  ∀ cz g, canopy m1 !! c = Some cz → ground m1 !! c = Some g →
          ¬ (cz - g < grounddepth args) ∨ cz = g →
          canopy m1' !! c = Some cz.
Proof.
  intros Hinv Hinv'. set (S := filter _ ps) in *.
  assert (HS : ∀ z, z ∈ cell_heights args c S → z ∈ cell_heights args c ps).
  { intros z (p & [_ Hp]%list_elem_of_filter & Hc & Hz)%elem_of_cell_heights.
    apply elem_of_cell_heights. by exists p. }
  destruct (Hinv c) as [Hnil Hcons], (Hinv' c) as [Hnil' Hcons'].
  destruct (decide (cell_heights args c ps = [])) as [Hzs|Hzs].
  - destruct (Hnil Hzs) as (_ & Hg & Hc & _).
    destruct Hnil' as (_ & Hg' & _).
    { destruct (cell_heights args c S) as [|z zs] eqn:E; [done|].
      specialize (HS z). rewrite Hzs in HS.
      exfalso. eapply elem_of_nil, HS. by left. }
    split; [congruence|]. intros cz g Hcz. congruence.
  - destruct (Hcons Hzs) as (_ & _ & g & cz & Hg & Hc & Hgin & Hcin & Hb).
    destruct (proj1 (elem_of_cell_heights _ _ _ _) Hgin)
      as (pg & Hpg & Hcg & Hzg).
    assert (HgS : g ∈ cell_heights args c S).
    { apply elem_of_cell_heights. exists pg. split; [|done].
      apply list_elem_of_filter. split; [|done].
      right. unfold lowest. by rewrite Hcg, Hzg. }
    destruct Hcons' as (_ & _ & g' & cz' & Hg' & Hc' & Hgin' & Hcin' & Hb').
    { intros E. rewrite E in HgS. by apply elem_of_nil in HgS. }
    assert (g' = g) as ->.
    { apply Qcle_antisym; [by apply Hb'|by apply Hb, HS]. }
    split; [congruence|].
    intros cz0 g0 Hcz0 Hg0 Hkept.
    rewrite Hc in Hcz0. rewrite Hg in Hg0.
    injection Hcz0 as <-. injection Hg0 as <-.
    destruct (proj1 (elem_of_cell_heights _ _ _ _) Hcin)
      as (pc & Hpc & Hcc & Hzc).
    assert (HcS : cz ∈ cell_heights args c S).
    { apply elem_of_cell_heights. exists pc. split; [|done].
      apply list_elem_of_filter. split; [|done].
      destruct Hkept as [Hab| ->].
      - left. unfold above_ground. by rewrite Hcc, Hg, Hzc.
      - right. unfold lowest. by rewrite Hcc, Hzc. }
    rewrite Hc'. f_equal.
    apply Qcle_antisym; [by apply Hb, HS|by apply Hb'].
Qed.

(** C4 (amended): when smoothing leaves the ground heights as the first
    pass read them, the map built from the sparse cloud has the same
    ground height for every cell, and the same canopy height for every
    cell whose highest point is kept: the canopy is at least
    [grounddepth] above the ground, or equal to it. *)
Theorem sparse_cloud_round_trip f m1 :
  update_spatial_loop args (new_MapObj f) = Ok m1 →
  smooth_ground args (ground m1) = Ok (ground m1) →
  ∃ m m' m2,
    update_spatial args recursion_limit (new_MapObj f) = Ok m ∧
    save_sparse_cloud args m = Ok m' ∧
    update_spatial args recursion_limit (new_MapObj (file m')) = Ok m2 ∧
    ground m2 = ground m ∧
    ∀ c cz g, canopy m !! c = Some cz → ground m !! c = Some g →
              ¬ (cz - g < grounddepth args) ∨ cz = g →
              canopy m2 !! c = Some cz.
Proof.
  intros Hloop Hstable.
  destruct (update_spatial_ok args recursion_limit cellsize_nonzero
              joinedcells_nonzero f)
    as (m1_ & m & Hm1 & Hm & Hinv & Hsm & Hdom & Hc & Hd & Hfd & Hf & _).
  rewrite Hloop in Hm1. injection Hm1 as <-.
  rewrite Hstable in Hsm. injection Hsm as Hg.
  assert (Hcells : ∀ p, p ∈ points (file m) →
                        is_Some (ground m !! cell args p)).
  { intros p Hp. rewrite Hf in Hp.
    by apply (pass1_cells args f m1 m p Hinv Hdom Hfd Hp). }
  set (f' := {| names := header m; offset := utm m;
                points := filter (in_sparse args (ground m))
                            (points (file m)) |}).
  destruct (update_spatial_ok args recursion_limit cellsize_nonzero
              joinedcells_nonzero f')
    as (m1' & m2 & Hm1' & Hm2 & Hinv' & Hsm' & _ & Hc' & _).
  cbn [points f'] in Hinv'. rewrite Hf, <-Hg in Hinv'.
  assert (Hg1' : ground m1' = ground m1).
  { apply map_eq. intros c.
    by destruct (sparse_heights (points f) m1 m1' c Hinv Hinv'). }
  rewrite Hg1', Hstable in Hsm'. injection Hsm' as Hg2.
  exists m, (set_file f' m), m2.
  split; [done|]. split; [by apply save_sparse_cloud_ok|].
  split; [done|]. split; [congruence|].
  intros c cz g Hcz Hgc Hkept. rewrite Hc'.
  destruct (sparse_heights (points f) m1 m1' c Hinv Hinv') as [_ Hcan].
  apply (Hcan cz g); [congruence|congruence|done].
Qed.
End sparse_facts.

Lemma sparse_cloud_round_trip_witness :
  ∃ m m' m2,
    update_spatial example_args 1000 (new_MapObj example_file) = Ok m ∧
    save_sparse_cloud example_args m = Ok m' ∧
    update_spatial example_args 1000 (new_MapObj (file m')) = Ok m2 ∧
    ground m2 = ground m ∧
    ∀ c cz g, canopy m !! c = Some cz → ground m !! c = Some g →
              ¬ (cz - g < grounddepth example_args) ∨ cz = g →
              canopy m2 !! c = Some cz.
Proof.
  eapply (sparse_cloud_round_trip example_args 1000);
    [by vm_compute|by vm_compute|vm_compute; reflexivity|
     vm_compute; reflexivity].
Defined.

(** C4 as stated fails: the point at height 0.1 is within [grounddepth]
    of the ground and is not the lowest, so the sparse cloud drops it and
    the canopy of the cell falls from 0.1 to 0. *)
Lemma sparse_cloud_loses_canopy :
  ∃ m m' m2,
    update_spatial example_args 1000 (new_MapObj low_file) = Ok m ∧
    save_sparse_cloud example_args m = Ok m' ∧
    update_spatial example_args 1000 (new_MapObj (file m')) = Ok m2 ∧
    canopy m !! XY 0 0 = Some (num 1 10) ∧
    canopy m2 !! XY 0 0 = Some 0 ∧
    num 1 10 ≠ 0.
Proof.
  do 3 eexists. split; [vm_compute; reflexivity|].
  split; [vm_compute; reflexivity|]. split; [vm_compute; reflexivity|].
  split; [|split]; apply (bool_decide_unpack _); vm_compute; exact I.
Qed.

(** ** Tree records *)

Section tree_record_facts.
Context (args : Args).
Context (to_latlon : Qc → Qc → Z → bool → Qc * Qc).

Lemma Qc_of_nat_nonzero n : n ≠ 0%nat → Qc_of_nat n ≠ 0.
Proof.
  intros Hn H. apply (f_equal this) in H. cbn in H.
  injection H as H. lia.
Qed.

Lemma ground_sum_ok m keys acc :
  (∀ k, k ∈ keys → is_Some (ground m !! k)) →
  ∃ gs, for_each keys
          (λ acc k, g ← getitem (ground m !! k); Ok (acc + g)) acc = Ok gs.
Proof.
  revert acc. induction keys as [|k keys IH]; intros acc Hks; [by exists acc|].
  destruct (Hks k) as [g Hg]; [by left|].
  cbn [for_each]. rewrite Hg. cbn [getitem mbind result_bind].
  apply IH. intros k' Hk'. apply Hks. by right.
Qed.

Lemma has_counters_insert out k v :
  has_counters out → has_counters (<[k := v]> out).
Proof.
  intros [Hh Hp]. split; apply lookup_insert_is_Some';
    by right.
Qed.

Lemma tree_colour_body_ok m k out ct n :
  filtered_density m !! k = Some n → n ≠ 0%nat →
  tree_colour_body m k out ct = Ok (<[ct.1 := ct.2 / Qc_of_nat n]> out).
Proof.
  intros Hn Hnz. unfold tree_colour_body, truediv. rewrite Hn.
  cbn [getitem mbind result_bind].
  by rewrite decide_False by (by apply Qc_of_nat_nonzero).
Qed.

Lemma tree_colour_loop_ok m k cts out :
  (∃ n, filtered_density m !! k = Some n ∧ n ≠ 0%nat) →
  has_counters out →
  ∃ out', for_each cts (tree_colour_body m k) out = Ok out' ∧
          has_counters out'.
Proof.
  intros (n & Hn & Hnz). revert out.
  induction cts as [|ct cts IH]; intros out Hout; [by exists out|].
  cbn [for_each]. rewrite (tree_colour_body_ok m k out ct n Hn Hnz).
  cbn [mbind result_bind]. apply IH. by apply has_counters_insert.
Qed.

Lemma tree_data_body_ok m out k :
  cell_ready m k → has_counters out →
  ∃ out', tree_data_body m out k = Ok out' ∧ has_counters out'.
Proof.
  intros ([c Hc] & [g Hg] & [d Hd] & [cols Hcols] & Hfd) Hout.
  unfold tree_data_body. destruct Hout as [[h Hh] [n Hn]].
  rewrite Hh, Hc, Hg. cbn [getitem mbind result_bind].
  rewrite lookup_insert_ne, Hn by done. cbn [getitem mbind result_bind].
  rewrite Hd, Hcols. cbn [getitem mbind result_bind].
  apply tree_colour_loop_ok.
  - destruct (filtered_density m !! k) as [fd|]; [|done]. by exists fd.
  - apply has_counters_insert, has_counters_insert. split; eauto.
Qed.

Lemma tree_data_loop_ok m keys out :
  (∀ k, k ∈ keys → cell_ready m k) → has_counters out →
  ∃ out', for_each keys (tree_data_body m) out = Ok out' ∧ has_counters out'.
Proof.
  revert out. induction keys as [|k keys IH]; intros out Hks Hout;
    [by exists out|].
  destruct (tree_data_body_ok m out k) as (out1 & H1 & Hout1);
    [apply Hks; by left|done|].
  cbn [for_each]. rewrite H1. cbn [mbind result_bind].
  apply IH; [|done]. intros k' Hk'. apply Hks. by right.
Qed.

Lemma tree_data_ok m keys :
  keys ≠ [] → (∀ k, k ∈ keys → cell_ready m k) →
  ∃ data h, tree_data args to_latlon m keys = Ok data ∧
            data !! "height"%string = Some h.
Proof.
  intros Hne Hks. unfold tree_data, truediv.
  assert (Hlen : Qc_of_nat (length keys) ≠ 0).
  { apply Qc_of_nat_nonzero. by destruct keys. }
  repeat (rewrite decide_False by done; cbn [mbind result_bind]).
  destruct (ground_sum_ok m keys 0) as (gs & Hgs).
  { intros k Hk. by destruct (Hks k Hk) as (_ & ? & _). }
  rewrite Hgs. cbn [mbind result_bind].
  rewrite decide_False by done. cbn [mbind result_bind].
  match goal with
  | |- ∃ data h, for_each keys _ ?out = _ ∧ _ =>
      destruct (tree_data_loop_ok m keys out Hks) as (data & Hd & [[h Hh] _])
  end.
  { split.
    - rewrite lookup_insert_ne, lookup_insert_ne, lookup_insert_ne by done.
      rewrite lookup_insert_eq. eauto.
    - rewrite lookup_insert_eq. eauto. }
  by exists data, h.
Qed.
End tree_record_facts.

Section all_trees_facts.
Context (args : Args).
Context (to_latlon : Qc → Qc → Z → bool → Qc * Qc).
Context (ids_iter : gset nat → list nat).
Context (keys_iter : gset XY_Coord → list XY_Coord).
Context (ids_iter_perm : ∀ s, ids_iter s ≡ₚ elements s).
Context (keys_iter_perm : ∀ s, keys_iter s ≡ₚ elements s).

Lemma elem_of_tree_keys m v k : k ∈ tree_keys m v ↔ trees m !! k = Some v.
Proof.
  unfold tree_keys. rewrite elem_of_dom. split.
  - intros [v' [Hv' Hf]%map_lookup_filter_Some]. cbn in Hf. by subst.
  - intros Hk. exists v. by apply map_lookup_filter_Some.
Qed.

Lemma elem_of_keys_iter s k : k ∈ keys_iter s ↔ k ∈ s.
Proof. by rewrite keys_iter_perm, elem_of_elements. Qed.

Lemma elem_of_tree_ids m v :
  v ∈ ids_iter (list_to_set (map_to_list (trees m)).*2) ↔
  ∃ k, trees m !! k = Some v.
Proof.
  rewrite ids_iter_perm, elem_of_elements, elem_of_list_to_set.
  rewrite list_elem_of_fmap. split.
  - intros ([k v'] & -> & Hkv%elem_of_map_to_list). by exists k.
  - intros [k Hk]. exists (k, v). split; [done|].
    by apply elem_of_map_to_list.
Qed.

(** The record of one tree: [tree_data] on its cells, in the order the
    set is iterated. *)
Lemma tree_record_ok m v :
  tree_ready m → (∃ k, trees m !! k = Some v) →
  ∃ data h,
    tree_data args to_latlon m (keys_iter (tree_keys m v)) = Ok data ∧
    data !! "height"%string = Some h.
Proof.
  intros Hready [k Hk]. apply tree_data_ok.
  - intros Hnil.
    assert (Hin : k ∈ keys_iter (tree_keys m v))
      by (by apply elem_of_keys_iter, elem_of_tree_keys).
    rewrite Hnil in Hin. by apply elem_of_nil in Hin.
  - intros k' Hk'%elem_of_keys_iter%elem_of_tree_keys.
    apply Hready, elem_of_dom. eauto.
Qed.

Lemma all_trees_loop_ok m vs acc :
  tree_ready m → (∀ v, v ∈ vs → ∃ k, trees m !! k = Some v) →
  ∃ datas,
    Forall2 (λ v data,
               tree_data args to_latlon m (keys_iter (tree_keys m v)) =
               Ok data) vs datas ∧
    for_each vs
      (λ acc v,
         data ← tree_data args to_latlon m (keys_iter (tree_keys m v));
         h ← getitem (data !! "height"%string);
         if decide (Q2Qc (3 # 2) * slicedepth args < h)
         then Ok (acc ++ [data]) else Ok acc) acc =
    Ok (acc ++ filter (tall args) datas).
Proof.
  intros Hready. revert acc. induction vs as [|v vs IH]; intros acc Hvs.
  - exists []. split; [constructor|]. cbn. by rewrite app_nil_r.
  - destruct (tree_record_ok m v Hready) as (data & h & Hdata & Hh);
      [apply Hvs; by left|].
    assert (Htall : tall args data ↔ Q2Qc (3 # 2) * slicedepth args < h).
    { unfold tall. by rewrite Hh. }
    cbn [for_each]. rewrite Hdata. cbn [mbind result_bind].
    rewrite Hh. cbn [getitem mbind result_bind].
    destruct (decide (Q2Qc (3 # 2) * slicedepth args < h)) as [Hd|Hd];
      cbn [mbind result_bind].
    + destruct (IH (acc ++ [data])) as (datas & HF & Hloop).
      { intros v' Hv'. apply Hvs. by right. }
      exists (data :: datas). split; [by constructor|].
      rewrite Hloop, filter_cons, decide_True by (by apply Htall).
      by rewrite <-app_assoc.
    + destruct (IH acc) as (datas & HF & Hloop).
      { intros v' Hv'. apply Hvs. by right. }
      exists (data :: datas). split; [by constructor|].
      rewrite Hloop, filter_cons, decide_False; [done|].
      intros Ht. by apply Hd, Htall.
Qed.

(** C8: on a map whose labelled cells all have their entries,
    [all_trees] runs [tree_data] once per tree label and yields exactly
    the records whose height is strictly more than [1.5 * slicedepth], in
    that order; a record whose height is [1.5 * slicedepth] is left out. *)
Theorem all_trees_height_filter m :
  tree_ready m →
  ∃ datas,
    Forall2 (λ v data,
               tree_data args to_latlon m (keys_iter (tree_keys m v)) =
               Ok data)
      (ids_iter (list_to_set (map_to_list (trees m)).*2)) datas ∧
    all_trees args to_latlon ids_iter keys_iter m =
      Ok (filter (tall args) datas) ∧
    (∀ data, data ∈ filter (tall args) datas ↔
             data ∈ datas ∧
             ∃ h, data !! "height"%string = Some h ∧
                  Q2Qc (3 # 2) * slicedepth args < h) ∧
    (∀ data, data !! "height"%string =
               Some (Q2Qc (3 # 2) * slicedepth args) →
             data ∉ filter (tall args) datas).
Proof.
  intros Hready.
  destruct (all_trees_loop_ok m
              (ids_iter (list_to_set (map_to_list (trees m)).*2)) []
              Hready) as (datas & HF & Hloop).
  { intros v Hv. by apply elem_of_tree_ids. }
  exists datas. split; [done|]. split; [exact Hloop|].
  assert (Hiff : ∀ data, data ∈ filter (tall args) datas ↔
             data ∈ datas ∧
             ∃ h, data !! "height"%string = Some h ∧
                  Q2Qc (3 # 2) * slicedepth args < h).
  { intros data. rewrite list_elem_of_filter. unfold tall.
    destruct (data !! "height"%string) as [h|].
    - split; [intros [? ?]; eauto|].
      intros [? (h' & [= <-] & ?)]. done.
    - split; [by intros [[] _]|]. by intros [_ (h & ? & _)]. }
  split; [exact Hiff|].
  intros data Hh [_ (h & Hh' & Hlt)]%Hiff.
  rewrite Hh in Hh'. injection Hh' as <-.
  by apply Qclt_not_eq in Hlt.
Qed.
End all_trees_facts.

Lemma all_trees_height_filter_witness :
  ∃ datas,
    Forall2 (λ v data,
               tree_data example_args plain_latlon example_map
                 (elements (tree_keys example_map v)) = Ok data)
      (elements (list_to_set (map_to_list (trees example_map)).*2 : gset nat))
      datas ∧
    all_trees example_args plain_latlon elements elements example_map =
      Ok (filter (tall example_args) datas) ∧
    (∀ data, data ∈ filter (tall example_args) datas ↔
             data ∈ datas ∧
             ∃ h, data !! "height"%string = Some h ∧
                  Q2Qc (3 # 2) * slicedepth example_args < h) ∧
    (∀ data, data !! "height"%string =
               Some (Q2Qc (3 # 2) * slicedepth example_args) →
             data ∉ filter (tall example_args) datas).
Proof.
  apply (all_trees_height_filter example_args plain_latlon elements elements
           (λ s, reflexivity _) (λ s, reflexivity _) example_map).
  apply (bool_decide_unpack _). vm_compute. exact I.
Defined.

(** ** Both passes and the table *)

Section pipeline_facts.
Context (args : Args) (recursion_limit : nat).
Context (to_latlon : Qc → Qc → Z → bool → Qc * Qc).
Context (ids_iter : gset nat → list nat).
Context (keys_iter : gset XY_Coord → list XY_Coord).
Context (ids_iter_perm : ∀ s, ids_iter s ≡ₚ elements s).
Context (keys_iter_perm : ∀ s, keys_iter s ≡ₚ elements s).
Context (cellsize_nonzero : cellsize args ≠ 0).
Context (joinedcells_nonzero : joinedcells args ≠ 0).
Context (ground_within_slice : grounddepth args ≤ slicedepth args).

Lemma set_file_id f m : file m = f → set_file f m = m.
Proof. destruct m. cbn. by intros ->. Qed.

(** The second pass over [S], a part of the stream of the first pass that
    holds every point above the ground, returns and leaves every labelled
    cell ready for [tree_data]. *)
Lemma second_pass_ok f m1 m f0 S :
  spatial_inv args (points f) m1 →
  dom (ground m) = dom (ground m1) → canopy m = canopy m1 →
  density m = density m1 → filtered_density m = filtered_density m1 →
  colours m = ∅ →
  (∀ k, k ∈ dom (trees m) → eligible args m k) →
  (∀ p, p ∈ S → p ∈ points f) →
  (∀ p, p ∈ points f → above_ground args (ground m) p → p ∈ S) →
  ∃ m2, for_each S (update_colours_body args) (set_file f0 m) = Ok m2 ∧
        trees m2 = trees m ∧ tree_ready m2.
Proof.
  intros Hinv Hdom Hc Hd Hfd Hcol Hel Hsub Hsup.
  destruct (colours_inv_loop args cellsize_nonzero (set_file f0 m) S []
              (set_file f0 m)) as (m2 & Hm2 & Hinv2).
  { by apply colours_inv_start. }
  { intros p Hp. cbn. apply (pass1_cells args f m1 m p); auto. }
  exists m2. split; [done|].
  destruct Hinv2 as (Hg2 & Hc2 & Hd2 & Ht2 & _ & _ & _ & Hfd2 & Hcol2 & _).
  cbn in Hg2, Hc2, Hd2, Ht2, Hfd2, Hcol2.
  split; [done|]. intros k Hk. rewrite Ht2 in Hk.
  destruct (Hel k Hk) as (c & g & Hck & Hgk & Hslice).
  destruct (Hinv k) as [Hnil Hcons].
  destruct (decide (cell_heights args k (points f) = [])) as [Hzs|Hzs].
  { destruct (Hnil Hzs) as (_ & _ & Hc1 & _). congruence. }
  destruct (Hcons Hzs) as (Hd1 & Hfd1 & g1 & c1 & Hg1 & Hc1 & _ & Hcin & _).
  assert (c1 = c) as -> by congruence.
  apply elem_of_cell_heights in Hcin as (p & Hp & Hcell & Hz).
  assert (Hab : above_ground args (ground m) p).
  { unfold above_ground. rewrite Hcell, Hgk, Hz. intros Hlt.
    apply (Qclt_not_le _ _ Hslice).
    apply Qclt_le_weak, Qclt_le_trans with (grounddepth args); done. }
  unfold cell_ready. rewrite Hc2, Hg2, Hd2, Hfd2, Hck, Hgk, Hd, Hd1, Hfd, Hfd1.
  cbn. do 3 (split; [by eauto|]). split; [|lia].
  apply Hcol2. exists p. split; [by apply Hsup|]. done.
Qed.

(** C10 (amended): when [grounddepth] is at most [slicedepth] (and
    [cellsize] and [joinedcells] are not zero), [main_processing] returns,
    with or without a sparse file on disk, and every cell of every
    labelled tree has an entry in the colour totals: no lookup of
    [tree_data] fails. *)
Theorem colours_cover_trees input sparse :
  ∃ attr_map rows,
    main_processing args recursion_limit to_latlon ids_iter keys_iter
      input sparse = Ok (attr_map, rows) ∧
    ∀ k, k ∈ dom (trees attr_map) → is_Some (colours attr_map !! k).
Proof.
  assert (Hinit : ∃ attr_map,
    match sparse with
    | Some sparse_file => MapObj_init args recursion_limit sparse_file true
    | None =>
        attr_map ← MapObj_init args recursion_limit input false;
        attr_map ← save_sparse_cloud args attr_map;
        update_colours args attr_map
    end = Ok attr_map ∧ tree_ready attr_map).
  { destruct sparse as [sf|].
    - destruct (update_spatial_ok args recursion_limit cellsize_nonzero
                  joinedcells_nonzero sf)
        as (m1 & m & _ & Hm & Hinv & _ & Hdom & Hc & Hd & Hfd & Hf & Hcol &
            _ & _ & Hel).
      destruct (second_pass_ok sf m1 m sf (points sf))
        as (m2 & Hm2 & _ & Hready); try done.
      exists m2. split; [|done]. unfold MapObj_init. rewrite Hm.
      cbn [mbind result_bind]. unfold update_colours.
      rewrite (set_file_id sf m Hf) in Hm2. by rewrite Hf.
    - destruct (update_spatial_ok args recursion_limit cellsize_nonzero
                  joinedcells_nonzero input)
        as (m1 & m & _ & Hm & Hinv & _ & Hdom & Hc & Hd & Hfd & Hf & Hcol &
            _ & _ & Hel).
      set (f' := {| names := header m; offset := utm m;
                    points := filter (in_sparse args (ground m))
                                (points input) |}).
      destruct (second_pass_ok input m1 m f' (points f'))
        as (m2 & Hm2 & _ & Hready); try done.
      { intros p [_ Hp]%list_elem_of_filter. done. }
      { intros p Hp Hab. apply list_elem_of_filter. split; [by left|done]. }
      exists m2. split; [|done]. unfold MapObj_init. rewrite Hm.
      cbn [mbind result_bind].
      rewrite (save_sparse_cloud_ok args cellsize_nonzero m).
      + cbn [mbind result_bind]. unfold update_colours. cbn [file set_file].
        rewrite Hf. exact Hm2.
      + intros p Hp. rewrite Hf in Hp.
        by apply (pass1_cells args input m1 m p). }
  destruct Hinit as (attr_map & Hinit & Hready).
  destruct (all_trees_height_filter args to_latlon ids_iter keys_iter
              ids_iter_perm keys_iter_perm attr_map Hready)
    as (datas & _ & Hrows & _).
  exists attr_map, (filter (tall args) datas). split.
  - unfold main_processing. rewrite Hinit. cbn [mbind result_bind].
    rewrite Hrows. done.
  - intros k Hk. by destruct (Hready k Hk) as (_ & _ & _ & ? & _).
Qed.
End pipeline_facts.

Lemma colours_cover_trees_witness :
  ∃ attr_map rows,
    main_processing example_args 1000 plain_latlon elements elements
      example_file None = Ok (attr_map, rows) ∧
    ∀ k, k ∈ dom (trees attr_map) → is_Some (colours attr_map !! k).
Proof.
  apply (colours_cover_trees example_args 1000 plain_latlon elements elements
           (λ s, reflexivity _) (λ s, reflexivity _));
    by vm_compute.
Defined.

(** C10 as stated fails: with [groundDepth=5] above [sliceDepth=0.5] the
    two cells of [example_file] are labelled, every point is classified as
    ground, no colour entry is made, and [tree_data] raises [KeyError]. *)
Lemma colours_missing_for_deep_ground :
  (∃ m, MapObj_init deep_args 1000 example_file true = Ok m ∧
        XY 0 0 ∈ dom (trees m) ∧ colours m !! XY 0 0 = None) ∧
  main_processing deep_args 1000 plain_latlon elements elements
    example_file None = Raise KeyError.
Proof.
  split; [|vm_compute; reflexivity].
  eexists. split; [vm_compute; reflexivity|].
  split; [|vm_compute; reflexivity].
  apply elem_of_dom. vm_compute. eauto.
Qed.

(** ** The grid quantizer *)

Section quantizer_facts.
Context (args : Args).

Lemma neighbors_unfold k :
  neighbors k =
  [XY (x k - 1) (y k - 1); XY (x k - 1) (y k + 0); XY (x k - 1) (y k + 1);
   XY (x k + 0) (y k - 1); XY (x k + 0) (y k + 1);
   XY (x k + 1) (y k - 1); XY (x k + 1) (y k + 0); XY (x k + 1) (y k + 1)].
Proof. reflexivity. Qed.

(** [neighbors] yields the eight keys at distance one, each once, and
    never the key itself; being a neighbour is symmetric. *)
Theorem neighbors_moore k :
  length (neighbors k) = 8%nat ∧ NoDup (neighbors k) ∧
  ∀ n, n ∈ neighbors k ↔
       n ≠ k ∧ (Z.abs (x n - x k) ≤ 1)%Z ∧ (Z.abs (y n - y k) ≤ 1)%Z.
Proof.
  split; [done|]. rewrite neighbors_unfold. destruct k as [kx ky]. cbn [x y].
  split.
  - repeat (apply NoDup_cons; split;
            [rewrite ?elem_of_cons, elem_of_nil;
             intros H; repeat destruct H as [H|H];
               try (injection H; lia); done|]).
    apply NoDup_nil_2.
  - intros [nx ny]. cbn [x y]. rewrite !elem_of_cons, elem_of_nil. split.
    + intros H. repeat destruct H as [H|H]; try done;
        injection H as -> ->; (split; [intros [=]; lia|lia]).
    + intros (Hne & Hx & Hy).
      assert (nx = kx - 1 ∨ nx = kx + 0 ∨ nx = kx + 1)%Z as Hnx by lia.
      assert (ny = ky - 1 ∨ ny = ky + 0 ∨ ny = ky + 1)%Z as Hny by lia.
      destruct Hnx as [-> | [-> | ->]], Hny as [-> | [-> | ->]];
        try (by auto 10).
      destruct Hne. f_equal; lia.
Qed.

Lemma neighbors_sym k n : n ∈ neighbors k ↔ k ∈ neighbors n.
Proof.
  destruct (neighbors_moore k) as (_ & _ & Hk).
  destruct (neighbors_moore n) as (_ & _ & Hn).
  rewrite Hk, Hn. split; intros (Hne & Hx & Hy); (split; [congruence|lia]).
Qed.





Lemma coords_zero_cellsize pos :
  cellsize args = 0 → coords args pos = Raise ZeroDivisionError.
Proof.
  intros Hz. unfold coords, truediv.
  destruct (decide (cellsize args = 0)); [reflexivity|done].
Qed.

End quantizer_facts.


(** ** What the first pass stores *)

Section ingest_facts.
Context (args : Args) (recursion_limit : nat).

(** After the loop of [update_spatial] a cell without points has no entry
    in any layer; a cell with points has their number as density, 1 as
    filtered density, the least of their heights as ground and the
    greatest as canopy. *)
Theorem update_spatial_loop_extrema f :
  cellsize args ≠ 0 →
  ∃ m, update_spatial_loop args (new_MapObj f) = Ok m ∧
    ∀ c, let zs := cell_heights args c (points f) in
      (zs = [] →
         oget (density m) c = None ∧ ground m !! c = None ∧
         canopy m !! c = None ∧ filtered_density m !! c = None) ∧
      (zs ≠ [] →
         oget (density m) c = Some (length zs) ∧
         filtered_density m !! c = Some 1%nat ∧
         ∃ g cz, ground m !! c = Some g ∧ canopy m !! c = Some cz ∧
                 g ∈ zs ∧ cz ∈ zs ∧ ∀ z, z ∈ zs → g ≤ z ∧ z ≤ cz).
Proof.
  intros Hc. destruct (update_spatial_loop_ok args Hc f) as (m & Hm & Hinv & _).
  exists m. split; [done|]. exact Hinv.
Qed.

Lemma sum_oset_None (d : odict XY_Coord nat) k v :
  oget d k = None →
  foldr Nat.add 0%nat (oset d k v).*2 = (foldr Nat.add 0%nat d.*2 + v)%nat.
Proof.
  induction d as [|[k0 v0] d IH]; cbn; [lia|].
  destruct (decide (k0 = k)); [done|]. intros H. cbn. rewrite IH by done. lia.
Qed.

Lemma sum_oset_Some (d : odict XY_Coord nat) k v v0 :
  oget d k = Some v0 →
  (foldr Nat.add 0%nat (oset d k v).*2 + v0 =
   foldr Nat.add 0%nat d.*2 + v)%nat.
Proof.
  induction d as [|[k0 v1] d IH]; cbn; [done|].
  destruct (decide (k0 = k)).
  - intros [= ->]. cbn. lia.
  - intros H. cbn. specialize (IH H). lia.
Qed.

Lemma update_spatial_body_len m p m' :
  update_spatial_body args m p = Ok m' → __len__ m' = (__len__ m + 1)%nat.
Proof.
  unfold update_spatial_body, __len__.
  destruct (coords args p) as [idx|e]; [|done]. cbn [mbind result_bind].
  destruct (oget (density m) idx) as [d|] eqn:Hd.
  - pose proof (sum_oset_Some (density m) idx (d + 1) d Hd) as Hsum.
    cbn [set_density ground canopy density].
    destruct (ground m !! idx) as [g|]; [|done]. cbn [getitem mbind result_bind].
    destruct (decide (pz p < g)); [intros [= <-]; cbn; lia|].
    destruct (canopy m !! idx) as [c|]; [|done].
    cbn [getitem mbind result_bind].
    destruct (decide (c < pz p)); intros [= <-]; cbn; lia.
  - intros [= <-]. cbn. by apply sum_oset_None.
Qed.

Lemma update_spatial_loop_len ps m m' :
  for_each ps (update_spatial_body args) m = Ok m' →
  __len__ m' = (__len__ m + length ps)%nat.
Proof.
  revert m. induction ps as [|p ps IH]; intros m; cbn [for_each].
  - intros [= <-]. cbn. lia.
  - destruct (update_spatial_body args m p) as [m1|e] eqn:H1; [|done].
    cbn [mbind result_bind]. intros H. rewrite (IH m1 H).
    rewrite (update_spatial_body_len m p m1 H1). cbn. lia.
Qed.

(** [__len__]: after the first pass the densities add up to the number of
    points read. *)
Theorem len_counts_points f :
  cellsize args ≠ 0 → joinedcells args ≠ 0 →
  ∃ m, update_spatial args recursion_limit (new_MapObj f) = Ok m ∧
       __len__ m = length (points f).
Proof.
  intros Hc Hj.
  destruct (update_spatial_ok args recursion_limit Hc Hj f)
    as (m1 & m & Hm1 & Hm & _ & _ & _ & _ & Hd & _).
  exists m. split; [done|]. unfold __len__ at 1. rewrite Hd.
  apply (update_spatial_loop_len _ _ _ Hm1).
Qed.

Lemma update_spatial_body_zero_cellsize m p :
  cellsize args = 0 → update_spatial_body args m p = Raise ZeroDivisionError.
Proof.
  intros Hz. unfold update_spatial_body.
  by rewrite (coords_zero_cellsize args p Hz).
Qed.

(** With [cellsize] zero the first point read ends the first pass with
    [ZeroDivisionError]. *)
Theorem update_spatial_zero_cellsize f :
  cellsize args = 0 → points f ≠ [] →
  update_spatial args recursion_limit (new_MapObj f) =
  Raise ZeroDivisionError.
Proof.
  intros Hz Hne. unfold update_spatial, update_spatial_loop. cbn [file new_MapObj].
  destruct (points f) as [|p ps]; [done|]. cbn [for_each].
  by rewrite update_spatial_body_zero_cellsize.
Qed.
End ingest_facts.

Lemma update_spatial_loop_extrema_witness :
  ∃ m, update_spatial_loop example_args (new_MapObj example_file) = Ok m ∧
    ∀ c, let zs := cell_heights example_args c (points example_file) in
      (zs = [] →
         oget (density m) c = None ∧ ground m !! c = None ∧
         canopy m !! c = None ∧ filtered_density m !! c = None) ∧
      (zs ≠ [] →
         oget (density m) c = Some (length zs) ∧
         filtered_density m !! c = Some 1%nat ∧
         ∃ g cz, ground m !! c = Some g ∧ canopy m !! c = Some cz ∧
                 g ∈ zs ∧ cz ∈ zs ∧ ∀ z, z ∈ zs → g ≤ z ∧ z ≤ cz).
Proof.
  apply (update_spatial_loop_extrema example_args example_file).
  by vm_compute.
Defined.

Lemma len_counts_points_witness :
  ∃ m, update_spatial example_args 1000 (new_MapObj example_file) = Ok m ∧
       __len__ m = length (points example_file).
Proof.
  apply (len_counts_points example_args 1000 example_file); by vm_compute.
Defined.

Lemma update_spatial_zero_cellsize_witness :
  update_spatial zero_args 1000 (new_MapObj example_file) =
  Raise ZeroDivisionError.
Proof.
  apply (update_spatial_zero_cellsize zero_args 1000 example_file);
    by vm_compute.
Defined.

(** ** What smoothing changes *)

Section smoother_facts.
Context (args : Args).

Lemma present_neighbors_dom (g g' : gmap XY_Coord Qc) k :
  dom g' = dom g → present_neighbors g' k = present_neighbors g k.
Proof.
  intros Hdom. unfold present_neighbors. apply list_filter_iff.
  intros n. rewrite <-!elem_of_dom, Hdom. done.
Qed.

Lemma heights_size_le g k :
  (size (heights g (neighbors k)) ≤ length (present_neighbors g k))%nat.
Proof.
  rewrite <-length_neighbor_heights. apply size_list_to_set_le.
Qed.

Lemma smooth_pass_other problematic g ks k :
  k ∉ ks → foldl (smooth_body args problematic) g ks !! k = g !! k.
Proof.
  revert g. induction ks as [|k0 ks IH]; intros g Hk; [done|].
  apply not_elem_of_cons in Hk as [Hne Hk]. cbn [foldl].
  rewrite IH by done. unfold smooth_body. destruct (pymin _); [|done].
  by rewrite lookup_insert_ne.
Qed.

Lemma smooth_rounds_few_neighbors n g problematic k :
  problematic ⊆ dom g →
  (length (present_neighbors g k) < 6)%nat →
  ∃ g', smooth_rounds args n g problematic = Ok g' ∧ dom g' = dom g ∧
        g' !! k = g !! k.
Proof.
  revert g problematic. induction n as [|n IH]; intros g problematic Hsub Hk.
  - by exists g.
  - rewrite smooth_rounds_S.
    destruct (detect_issues_ok args g problematic Hsub) as (s & Hs & Hiff).
    rewrite Hs. cbn [mbind result_bind].
    assert (Hs_sub : s ⊆ dom g).
    { intros k' Hk'. apply Hsub. by apply Hiff in Hk' as [? _]. }
    assert (Hks : k ∉ s).
    { intros (_ & gk & _ & H6 & _)%Hiff.
      pose proof (heights_size_le g k). lia. }
    set (g1 := foldl (smooth_body args s) g (elements s)).
    assert (Hdom : dom g1 = dom g).
    { apply smooth_pass_dom. intros k' Hk'. apply Hs_sub.
      by apply elem_of_elements. }
    destruct (IH g1 s) as (g' & Hg' & Hdom' & Hlook).
    { by rewrite Hdom. }
    { by rewrite (present_neighbors_dom g g1 k Hdom). }
    exists g'. split; [done|]. split; [congruence|].
    rewrite Hlook. apply smooth_pass_other. by rewrite elem_of_elements.
Qed.

(** [smooth_ground] always returns a map with the cells of its input, and
    a cell with fewer than six neighbours in the map keeps its ground
    height. *)
Theorem smooth_ground_keeps_cells g :
  ∃ g', smooth_ground args g = Ok g' ∧ dom g' = dom g ∧
        ∀ k, (length (present_neighbors g k) < 6)%nat → g' !! k = g !! k.
Proof.
  destruct (smooth_ground_ok args g) as (g' & Hg' & Hdom).
  exists g'. do 2 (split; [done|]). intros k Hk.
  destruct (smooth_rounds_few_neighbors 100 g (dom g) k) as (g'' & Hg'' & _ & ?);
    [done|done|].
  unfold smooth_ground in Hg'. congruence.
Qed.

(** *** The order in which the sets are visited *)

Lemma heights_agree (g g' : gmap XY_Coord Qc) ns :
  (∀ n, n ∈ ns → g' !! n = g !! n) → heights g' ns = heights g ns.
Proof.
  intros Hns. unfold heights. f_equal.
  induction ns as [|n ns IH]; [done|]. cbn [omap list_omap].
  rewrite (Hns n) by (by left).
  rewrite IH by (intros n' Hn'; apply Hns; by right). done.
Qed.

(** What one pass over the problematic cells [ks] leaves in cell [k]. *)
Lemma smooth_pass_lookup problematic g ks k :
  NoDup ks → (∀ k', k' ∈ ks → k' ∈ problematic) →
  foldl (smooth_body args problematic) g ks !! k =
  if decide (k ∈ ks) then
    match pymin (heights g (filter (λ n, n ∉ problematic) (neighbors k))) with
    | Some m => Some (m + 2 * cellsize args)
    | None => g !! k
    end
  else g !! k.
Proof.
  intros Hnd Hks. destruct (decide (k ∈ ks)) as [Hin|Hin];
    [|by apply smooth_pass_other].
  revert g. induction ks as [|k0 ks IH]; intros g; [by apply elem_of_nil in Hin|].
  apply NoDup_cons in Hnd as [Hk0 Hnd]. cbn [foldl].
  assert (Hclean : ∀ k1 n,
    n ∈ filter (λ n, n ∉ problematic) (neighbors k1) →
    smooth_body args problematic g k0 !! n = g !! n).
  { intros k1 n [Hn _]%list_elem_of_filter. unfold smooth_body.
    destruct (pymin _); [|done]. apply lookup_insert_ne.
    intros ->. apply Hn, Hks. by left. }
  apply elem_of_cons in Hin as [->|Hin].
  - rewrite smooth_pass_other by done. unfold smooth_body.
    destruct (pymin _); [by rewrite lookup_insert_eq|done].
  - rewrite IH; [|done|intros k' Hk'; apply Hks; by right|done].
    rewrite (heights_agree g (smooth_body args problematic g k0))
      by (apply Hclean).
    destruct (pymin _); [done|]. unfold smooth_body.
    destruct (pymin _); [|done]. apply lookup_insert_ne.
    intros ->. done.
Qed.

(** The inner loop of [smooth_ground] gives the same ground map whatever
    the order in which the problematic set is visited: a problematic cell
    gets the least ground height of its neighbours outside the set plus
    [2 * cellsize], or keeps its own when it has no such neighbour, and
    every other cell keeps its own. *)
Theorem smooth_pass_any_order problematic g ks :
  ks ≡ₚ elements problematic →
  foldl (smooth_body args problematic) g ks =
    foldl (smooth_body args problematic) g (elements problematic) ∧
  ∀ k, foldl (smooth_body args problematic) g ks !! k =
       if decide (k ∈ problematic) then
         match pymin (heights g (filter (λ n, n ∉ problematic)
                                   (neighbors k))) with
         | Some m => Some (m + 2 * cellsize args)
         | None => g !! k
         end
       else g !! k.
Proof.
  intros Hperm.
  assert (Hspec : ∀ ks', ks' ≡ₚ elements problematic →
    ∀ k, foldl (smooth_body args problematic) g ks' !! k =
       if decide (k ∈ problematic) then
         match pymin (heights g (filter (λ n, n ∉ problematic)
                                   (neighbors k))) with
         | Some m => Some (m + 2 * cellsize args)
         | None => g !! k
         end
       else g !! k).
  { intros ks' Hp k. rewrite smooth_pass_lookup.
    - destruct (decide (k ∈ ks')) as [Hin|Hin];
        rewrite Hp, elem_of_elements in Hin.
      + by rewrite decide_True.
      + by rewrite decide_False.
    - rewrite Hp. apply NoDup_elements.
    - intros k'. by rewrite Hp, elem_of_elements. }
  split; [|by apply Hspec].
  apply map_eq. intros k. by rewrite !Hspec.
Qed.

Lemma detect_issues_body_cases g k :
  (∀ s, detect_issues_body args g s k = Ok s) ∨
  (∀ s, detect_issues_body args g s k = Ok ({[k]} ∪ s)) ∨
  (∀ s, detect_issues_body args g s k = Raise KeyError).
Proof.
  unfold detect_issues_body.
  destruct (decide (size (heights g (neighbors k)) < 6)%nat); [by left|].
  destruct (g !! k) as [gk|]; cbn [getitem mbind result_bind];
    [|by right; right].
  destruct (decide (3 ≤ size (filter (steep args gk)
                                (heights g (neighbors k))))%nat);
    [right; by left|by left].
Qed.

Lemma detect_issues_loop_perm g ks ks' s :
  ks ≡ₚ ks' →
  for_each ks (detect_issues_body args g) s =
  for_each ks' (detect_issues_body args g) s.
Proof.
  intros Hperm. revert s.
  induction Hperm as [|k ks ks' _ IH|k1 k2 ks|ks1 ks2 ks3 _ IH1 _ IH2];
    intros s.
  - done.
  - cbn [for_each]. destruct (detect_issues_body args g s k); [apply IH|done].
  - cbn [for_each].
    destruct (detect_issues_body_cases g k1) as [H1|[H1|H1]],
             (detect_issues_body_cases g k2) as [H2|[H2|H2]];
      rewrite ?H1, ?H2; cbn [mbind result_bind];
      rewrite ?H1, ?H2; cbn [mbind result_bind]; try done.
    f_equal. apply set_eq. intros k.
    rewrite !elem_of_union. tauto.
  - by rewrite IH1.
Qed.

(** [detect_issues] gives the same set, or the same [KeyError], whatever
    the order in which the candidates are visited. *)
Theorem detect_issues_any_order g prior ks :
  ks ≡ₚ elements prior →
  detect_issues_on args g ks = detect_issues args g prior.
Proof. intros Hperm. by apply detect_issues_loop_perm. Qed.
End smoother_facts.

Lemma smooth_pass_any_order_witness :
  foldl (smooth_body example_args {[XY 0 0]}) six_neighbors [XY 0 0] =
    foldl (smooth_body example_args {[XY 0 0]}) six_neighbors
      (elements ({[XY 0 0]} : gset XY_Coord)) ∧
  ∀ k, foldl (smooth_body example_args {[XY 0 0]}) six_neighbors [XY 0 0]
         !! k =
       if decide (k ∈ ({[XY 0 0]} : gset XY_Coord)) then
         match pymin (heights six_neighbors
                        (filter (λ n, n ∉ ({[XY 0 0]} : gset XY_Coord))
                           (neighbors k))) with
         | Some m => Some (m + 2 * cellsize example_args)
         | None => six_neighbors !! k
         end
       else six_neighbors !! k.
Proof.
  apply (smooth_pass_any_order example_args {[XY 0 0]} six_neighbors).
  by vm_compute.
Defined.

Lemma detect_issues_any_order_witness :
  detect_issues_on example_args six_neighbors [XY 0 0; XY 0 1] =
  detect_issues example_args six_neighbors {[XY 0 0; XY 0 1]}.
Proof.
  apply (detect_issues_any_order example_args six_neighbors
           {[XY 0 0; XY 0 1]} [XY 0 0; XY 0 1]).
  assert (E : elements ({[XY 0 0; XY 0 1]} : gset XY_Coord) =
              [XY 0 1; XY 0 0]) by (vm_compute; reflexivity).
  rewrite E. apply perm_swap.
Defined.

(** ** What label propagation does *)

Section components_facts.
Context (recursion_limit : nat).

Lemma labels_shrink_refl com : labels_shrink com com.
Proof. split; [done|]. intros k l Hl. split; eauto. Qed.

Lemma labels_shrink_trans com1 com2 com3 :
  labels_shrink com1 com2 → labels_shrink com2 com3 →
  labels_shrink com1 com3.
Proof.
  intros [Hk12 H12] [Hk23 H23]. split; [congruence|].
  intros k l3 Hl3. destruct (H23 k l3 Hl3) as [(l2 & Hl2 & Hle) (k2 & Hk2)].
  destruct (H12 k l2 Hl2) as [(l1 & Hl1 & Hle') _].
  destruct (H12 k2 l3 Hk2) as [_ Hsrc].
  split; [exists l1; split; [done|lia]|done].
Qed.

(** Writing at [k] a smaller label that the dict already holds. *)
Lemma labels_shrink_oset com k l k0 l0 :
  oget com k = Some l → oget com k0 = Some l0 → (l0 ≤ l)%nat →
  labels_shrink com (oset com k l0).
Proof.
  intros Hk Hk0 Hle. split; [apply okeys_oset_Some; eauto|].
  intros k' l' Hl'. destruct (decide (k = k')) as [<-|Hne].
  - rewrite oget_oset_eq in Hl'. injection Hl' as <-.
    split; [by exists l|by exists k0].
  - rewrite oget_oset_ne in Hl' by done. split; eauto.
Qed.

Lemma expand_loop_shrinks recurse old_key ns com :
  expand_safe recurse → expand_shrinks recurse →
  is_Some (oget com old_key) →
  labels_shrink com (expand_loop recurse old_key ns com).1.
Proof.
  intros Hsafe Hrec. revert com.
  induction ns as [|key ns IH]; intros com Hold;
    [apply labels_shrink_refl|].
  cbn [expand_loop].
  destruct (oget com key) as [lk|] eqn:Hkey; [|apply labels_shrink_refl].
  destruct Hold as [lo Hlo]. rewrite Hlo.
  destruct (decide (lk = lo)); [apply IH; eauto|].
  destruct (decide (lk < lo)%nat).
  - apply labels_shrink_trans with (oset com old_key lk).
    + apply (labels_shrink_oset com old_key lo key lk); [done|done|lia].
    + apply IH. rewrite oget_oset_eq. eauto.
  - assert (Hstep : labels_shrink com (oset com key lo)).
    { apply (labels_shrink_oset com key lk old_key lo); [done|done|lia]. }
    assert (Hpres : is_Some (oget (oset com key lo) key))
      by (rewrite oget_oset_eq; eauto).
    pose proof (Hrec key (oset com key lo) Hpres) as Hsh.
    destruct (recurse key (oset com key lo)) as [com' [[]|e]] eqn:Hr;
      cbn [fst] in Hsh; cbv beta iota.
    + apply labels_shrink_trans with com';
        [by apply labels_shrink_trans with (oset com key lo)|].
      apply IH. apply (oget_same_keys com); [|eauto].
      destruct Hstep as [Hs1 _], Hsh as [Hs2 _]. congruence.
    + cbn [fst]. by apply labels_shrink_trans with (oset com key lo).
Qed.

Lemma expand_shrinks_depth depth : expand_shrinks (expand depth).
Proof.
  induction depth as [|depth IH]; intros key com Hkey.
  - cbn. apply labels_shrink_refl.
  - cbn [expand]. apply expand_loop_shrinks; [apply expand_keys|done|done].
Qed.

Lemma connected_components_loop_shrinks ks com :
  (∀ k, k ∈ ks → k ∈ okeys com) →
  ∃ com',
    for_each ks (connected_components_body recursion_limit) com = Ok com' ∧
    labels_shrink com com'.
Proof.
  revert com. induction ks as [|k ks IH]; intros com Hks.
  - exists com. split; [done|apply labels_shrink_refl].
  - assert (Hk : is_Some (oget com k)) by (apply elem_of_okeys, Hks; by left).
    pose proof (expand_shrinks_depth recursion_limit k com Hk) as Hsh.
    destruct (expand_keys recursion_limit k com Hk) as [_ Hst].
    assert (Hbody : connected_components_body recursion_limit com k =
                    Ok (expand recursion_limit k com).1).
    { unfold connected_components_body.
      destruct (expand recursion_limit k com) as [com1 st].
      cbn [snd] in Hst. by destruct Hst as [-> | ->]. }
    destruct (IH (expand recursion_limit k com).1) as (com' & H' & Hsh').
    { intros k' Hk'. destruct Hsh as [-> _]. apply Hks. by right. }
    exists com'. cbn [for_each]. rewrite Hbody. split; [exact H'|].
    by apply labels_shrink_trans with (expand recursion_limit k com).1.
Qed.

(** [connected_components] always returns (a [RecursionError] is swallowed
    and no [KeyError] can arise); the dict keeps its keys and their order;
    no label grows, and every label left is one of the labels given. *)
Theorem connected_components_shrinks com :
  ∃ com',
    connected_components recursion_limit com = Ok com' ∧
    okeys com' = okeys com ∧
    ∀ k l', oget com' k = Some l' →
            (∃ l, oget com k = Some l ∧ (l' ≤ l)%nat) ∧
            ∃ k0, oget com k0 = Some l'.
Proof.
  destruct (connected_components_loop_shrinks (okeys com) com)
    as (com' & H' & Hk & Hl); [done|].
  by exists com'.
Qed.

Lemma connected_components_body_lower_left com k :
  oget com (XY (x k - 1) (y k - 1)) = None →
  connected_components_body recursion_limit com k = Ok com.
Proof.
  intros Hnone. unfold connected_components_body.
  destruct recursion_limit as [|depth]; [done|].
  cbn [expand]. rewrite neighbors_unfold. cbn [expand_loop].
  by rewrite Hnone.
Qed.

Lemma connected_components_loop_lower_left ks com :
  (∀ k, k ∈ ks → oget com (XY (x k - 1) (y k - 1)) = None) →
  for_each ks (connected_components_body recursion_limit) com = Ok com.
Proof.
  induction ks as [|k ks IH]; intros Hks; [done|].
  cbn [for_each].
  rewrite connected_components_body_lower_left by (apply Hks; by left).
  cbn [mbind result_bind]. apply IH. intros k' Hk'. apply Hks. by right.
Qed.

(** [expand] returns at the first absent neighbour, and the first
    neighbour it looks at is the one at [(x-1, y-1)]: when no key of the
    dict has that neighbour in the dict, [connected_components] changes no
    label, whatever other neighbours are there. *)
Theorem connected_components_lower_left com :
  (∀ k, k ∈ okeys com → oget com (XY (x k - 1) (y k - 1)) = None) →
  connected_components recursion_limit com = Ok com.
Proof. apply connected_components_loop_lower_left. Qed.
End components_facts.

Lemma connected_components_lower_left_witness :
  connected_components 1000 adjacent_labels = Ok adjacent_labels.
Proof.
  apply (connected_components_lower_left 1000 adjacent_labels).
  intros k Hk. unfold adjacent_labels, okeys in Hk. cbn in Hk.
  apply elem_of_cons in Hk as [->|Hk]; [reflexivity|].
  apply list_elem_of_singleton in Hk as ->. reflexivity.
Defined.

(** ** Which cells get a label *)

Section labelling_facts.
Context (args : Args) (recursion_limit : nat).
Context (joinedcells_nonzero : joinedcells args ≠ 0).

Lemma elem_of_oset_keep {V} (d : odict XY_Coord V) k v kv0 :
  kv0 ∈ d → kv0 ∈ oset d k v ∨ (kv0.1 = k ∧ oget d k = Some kv0.2).
Proof.
  induction d as [|[k1 v1] d IH]; [by intros ?%elem_of_nil|].
  intros [->|Hin]%elem_of_cons; cbn.
  - destruct (decide (k1 = k)) as [->|Hne]; [by right|left; by left].
  - destruct (decide (k1 = k)) as [->|Hne].
    + left. by right.
    + destruct (IH Hin) as [?|[? ?]]; [left; by right|by right].
Qed.

Lemma elem_of_oset_new {V} (d : odict XY_Coord V) k v : (k, v) ∈ oset d k v.
Proof.
  induction d as [|[k1 v1] d IH]; cbn; [by left|].
  destruct (decide (k1 = k)) as [->|Hne]; [by left|by right].
Qed.

(** The grouping loop of [_tree_components]: the sets hold eligible cells
    under their coarse key, and every eligible cell read is in a set. *)
Lemma key_scale_body_groups m (ks0 : list XY_Coord)
    (ksr : odict XY_Coord (gset XY_Coord)) key :
  key ∈ ks0 → is_Some (canopy m !! key) → is_Some (ground m !! key) →
  (∀ kv, kv ∈ ksr → ∀ s, s ∈ kv.2 →
         eligible args m s ∧ coarse args s = kv.1 ∧ s ∈ ks0) →
  ∃ ksr', key_scale_body args m ksr key = Ok ksr' ∧
    (∀ kv, kv ∈ ksr' → ∀ s, s ∈ kv.2 →
           eligible args m s ∧ coarse args s = kv.1 ∧ s ∈ ks0) ∧
    (∀ s, (∃ kv, kv ∈ ksr ∧ s ∈ kv.2) → ∃ kv, kv ∈ ksr' ∧ s ∈ kv.2) ∧
    (eligible args m key → ∃ kv, kv ∈ ksr' ∧ key ∈ kv.2).
Proof.
  intros Hkey [c Hc] [g Hg] Hinv. unfold key_scale_body, truediv.
  rewrite Hc, Hg. cbn [getitem mbind result_bind].
  destruct (decide (slicedepth args < c - g)) as [Hel|Hel].
  - repeat (rewrite decide_False by done; cbn [mbind result_bind]).
    change (XY _ _) with (coarse args key).
    assert (Hk : eligible args m key) by (exists c, g; done).
    destruct (oget ksr (coarse args key)) as [v|] eqn:Hv;
      eexists; (split; [done|]); (split; [|split]).
    + intros kv [->|Hin]%elem_of_oset s Hs; [|by apply (Hinv kv)].
      cbn in Hs. apply elem_of_union in Hs as [Hs| ->%elem_of_singleton];
        [|done].
      apply (Hinv (coarse args key, v)); [by apply oget_Some_elem_of|done].
    + intros s (kv & Hkv & Hs).
      destruct (elem_of_oset_keep ksr (coarse args key) (v ∪ {[key]}) kv Hkv)
        as [?|[Hk1 Hk2]]; [by exists kv|].
      exists (coarse args key, v ∪ {[key]}).
      split; [apply elem_of_oset_new|]. cbn.
      rewrite Hv in Hk2. injection Hk2 as ->.
      apply elem_of_union. by left.
    + intros _. exists (coarse args key, v ∪ {[key]}).
      split; [apply elem_of_oset_new|]. cbn.
      apply elem_of_union. right. by apply elem_of_singleton.
    + intros kv [->|Hin]%elem_of_oset s Hs; [|by apply (Hinv kv)].
      cbn in Hs. by apply elem_of_singleton in Hs as ->.
    + intros s (kv & Hkv & Hs).
      destruct (elem_of_oset_keep ksr (coarse args key) {[key]} kv Hkv)
        as [?|[Hk1 Hk2]]; [by exists kv|congruence].
    + intros _. exists (coarse args key, {[key]}).
      split; [apply elem_of_oset_new|]. cbn. by apply elem_of_singleton.
  - exists ksr. split; [done|]. split; [done|]. split; [done|].
    intros (c' & g' & Hc' & Hg' & Hlt). congruence.
Qed.

Lemma key_scale_loop_groups m (ks0 ks : list XY_Coord)
    (ksr : odict XY_Coord (gset XY_Coord)) :
  (∀ k, k ∈ ks → k ∈ ks0) →
  (∀ k, k ∈ ks0 → is_Some (canopy m !! k) ∧ is_Some (ground m !! k)) →
  (∀ kv, kv ∈ ksr → ∀ s, s ∈ kv.2 →
         eligible args m s ∧ coarse args s = kv.1 ∧ s ∈ ks0) →
  ∃ ksr', for_each ks (key_scale_body args m) ksr = Ok ksr' ∧
    (∀ kv, kv ∈ ksr' → ∀ s, s ∈ kv.2 →
           eligible args m s ∧ coarse args s = kv.1 ∧ s ∈ ks0) ∧
    (∀ s, (∃ kv, kv ∈ ksr ∧ s ∈ kv.2) → ∃ kv, kv ∈ ksr' ∧ s ∈ kv.2) ∧
    (∀ s, s ∈ ks → eligible args m s → ∃ kv, kv ∈ ksr' ∧ s ∈ kv.2).
Proof.
  revert ksr. induction ks as [|k ks IH]; intros ksr Hsub Hks Hinv.
  - exists ksr. do 3 (split; [done|]). by intros s ?%elem_of_nil.
  - destruct (Hks k) as [Hc Hg]; [apply Hsub; by left|].
    destruct (key_scale_body_groups m ks0 ksr k) as (ksr1 & H1 & Hinv1 & Hkeep1 & Hnew1);
      [apply Hsub; by left|done|done|done|].
    destruct (IH ksr1) as (ksr' & H' & Hinv' & Hkeep' & Hnew');
      [intros k' Hk'; apply Hsub; by right|done|done|].
    exists ksr'. cbn [for_each]. rewrite H1. split; [exact H'|].
    split; [done|]. split; [intros s Hs; by apply Hkeep', Hkeep1|].
    intros s [->|Hs]%elem_of_cons Hel; [|by apply Hnew'].
    by apply Hkeep', Hnew1.
Qed.

Lemma copy_labels_inner_lookup (trees : odict XY_Coord nat) k l ss
    (out : gmap XY_Coord nat) :
  oget trees k = Some l →
  ∃ out',
    for_each ss (λ out s, l ← getitem (oget trees k); Ok (<[s := l]> out)) out
      = Ok out' ∧
    ∀ s, out' !! s = if decide (s ∈ ss) then Some l else out !! s.
Proof.
  intros Hl. rewrite Hl. revert out.
  induction ss as [|s0 ss IH]; intros out.
  - exists out. split; [done|]. intros s.
    rewrite decide_False; [done|apply not_elem_of_nil].
  - cbn [for_each getitem mbind result_bind].
    destruct (IH (<[s0 := l]> out)) as (out' & H' & Hlook).
    exists out'. split; [done|]. intros s. rewrite Hlook.
    destruct (decide (s ∈ ss)) as [Hin|Hin].
    + rewrite decide_True; [done|by right].
    + destruct (decide (s = s0)) as [->|Hne].
      * rewrite lookup_insert_eq. rewrite decide_True; [done|by left].
      * rewrite lookup_insert_ne by done.
        rewrite decide_False; [done|].
        by intros [?|?]%elem_of_cons.
Qed.

Lemma copy_labels_lookup (trees : odict XY_Coord nat) kv l
    (out : gmap XY_Coord nat) :
  oget trees kv.1 = Some l →
  ∃ out', copy_labels trees out kv = Ok out' ∧
    ∀ s, out' !! s = if decide (s ∈ elements kv.2) then Some l else out !! s.
Proof.
  intros Hl. unfold copy_labels.
  apply (copy_labels_inner_lookup trees kv.1 l (elements kv.2) out Hl).
Qed.

Lemma copy_labels_loop_lookup (trees : odict XY_Coord nat)
    (ksr : odict XY_Coord (gset XY_Coord)) (out : gmap XY_Coord nat) :
  (∀ kv, kv ∈ ksr → is_Some (oget trees kv.1)) →
  ∃ out', for_each ksr (copy_labels trees) out = Ok out' ∧
    (∀ s, s ∈ dom out' ↔ s ∈ dom out ∨ ∃ kv, kv ∈ ksr ∧ s ∈ kv.2) ∧
    ∀ s l, out' !! s = Some l →
           out !! s = Some l ∨
           ∃ kv, kv ∈ ksr ∧ s ∈ kv.2 ∧ oget trees kv.1 = Some l.
Proof.
  revert out. induction ksr as [|kv0 ksr IH]; intros out Hks.
  - exists out. split; [done|]. split; [|by left].
    intros s. split; [by left|]. intros [?|(kv & []%elem_of_nil & _)]. done.
  - destruct (Hks kv0) as [l0 Hl0]; [by left|].
    destruct (copy_labels_lookup trees kv0 l0 out Hl0)
      as (out1 & H1 & Hlook1).
    destruct (IH out1) as (out' & H' & Hdom' & Hlook').
    { intros kv Hkv. apply Hks. by right. }
    exists out'. cbn [for_each]. rewrite H1.
    split; [exact H'|]. split.
    + intros s. rewrite Hdom'. rewrite !elem_of_dom, Hlook1.
      destruct (decide (s ∈ elements kv0.2)) as [Hin|Hin].
      * split; [|eauto]. intros _. right. exists kv0.
        split; [by left|by apply elem_of_elements].
      * split.
        -- intros [?|(kv & Hkv & Hs)]; [by left|].
           right. exists kv. split; [by right|done].
        -- intros [?|(kv & [->|Hkv]%elem_of_cons & Hs)]; [by left| |].
           ++ by apply elem_of_elements in Hs.
           ++ right. by exists kv.
    + intros s l [Hl|(kv & Hkv & Hs & Hl)]%Hlook'.
      * rewrite Hlook1 in Hl.
        destruct (decide (s ∈ elements kv0.2)) as [Hin|Hin]; [|by left].
        right. exists kv0. split; [by left|].
        split; [by apply elem_of_elements|congruence].
      * right. exists kv. split; [by right|done].
Qed.

(** [_tree_components] labels exactly the cells of the density map whose
    canopy is more than [slicedepth] above their ground, and gives the
    cells that share a coarse key the same label. *)
Lemma tree_components_labels m :
  (∀ k, k ∈ okeys (density m) →
        is_Some (canopy m !! k) ∧ is_Some (ground m !! k)) →
  ∃ t, _tree_components args recursion_limit m = Ok t ∧
    (∀ k, k ∈ dom t ↔ k ∈ okeys (density m) ∧ eligible args m k) ∧
    (∀ k1 k2 l1 l2, t !! k1 = Some l1 → t !! k2 = Some l2 →
                    coarse args k1 = coarse args k2 → l1 = l2).
Proof.
  intros Hks. unfold _tree_components.
  destruct (key_scale_loop_groups m (okeys (density m)) (okeys (density m)) [])
    as (ksr & Hksr & Hinv & _ & Hcover);
    [done|done|by intros kv ?%elem_of_nil|].
  rewrite Hksr. cbn [mbind result_bind].
  destruct (connected_components_ok recursion_limit
              (imap (λ i k, (k, i)) (okeys ksr)))
    as (trees & Htrees & Hkeys).
  rewrite Htrees. cbn [mbind result_bind]. rewrite okeys_enumerate in Hkeys.
  destruct (copy_labels_loop_lookup trees ksr ∅) as (t & Ht & Hdom & Hlook).
  { intros kv Hkv. apply elem_of_okeys. rewrite Hkeys.
    unfold okeys. apply list_elem_of_fmap. by exists kv. }
  exists t. split; [done|]. split.
  - intros k. rewrite Hdom, dom_empty. split.
    + intros [[]%elem_of_empty|(kv & Hkv & Hs)].
      destruct (Hinv kv Hkv k Hs) as (? & _ & ?). done.
    + intros [Hk Hel]. right. by apply Hcover.
  - intros k1 k2 l1 l2 Hl1 Hl2 Hco.
    destruct (Hlook k1 l1 Hl1) as [Hl|(kv1 & Hkv1 & Hs1 & Ht1)];
      [by rewrite lookup_empty in Hl|].
    destruct (Hlook k2 l2 Hl2) as [Hl|(kv2 & Hkv2 & Hs2 & Ht2)];
      [by rewrite lookup_empty in Hl|].
    destruct (Hinv kv1 Hkv1 k1 Hs1) as (_ & Hc1 & _).
    destruct (Hinv kv2 Hkv2 k2 Hs2) as (_ & Hc2 & _).
    congruence.
Qed.

Context (cellsize_nonzero : cellsize args ≠ 0).

(** After the first pass the labelled cells are exactly the occupied cells
    whose canopy is more than [slicedepth] above their smoothed ground, and
    two labelled cells with the same coarse key carry the same label. *)
Theorem update_spatial_labels f :
  ∃ m, update_spatial args recursion_limit (new_MapObj f) = Ok m ∧
    (∀ k, k ∈ dom (trees m) ↔
          is_Some (oget (density m) k) ∧ eligible args m k) ∧
    (∀ k1 k2 l1 l2, trees m !! k1 = Some l1 → trees m !! k2 = Some l2 →
                    coarse args k1 = coarse args k2 → l1 = l2).
Proof.
  destruct (update_spatial_loop_ok args cellsize_nonzero f)
    as (m1 & Hm1 & Hinv & _).
  destruct (smooth_ground_ok args (ground m1)) as (g & Hg & Hdom).
  destruct (tree_components_labels (set_ground g m1)) as (t & Ht & Hdomt & Hsame).
  { intros k Hk%elem_of_okeys. cbn.
    destruct (spatial_inv_dom args (points f) m1 k Hinv) as (Hdg & Hdc & _).
    split; [by apply Hdc|].
    apply elem_of_dom. rewrite Hdom. apply elem_of_dom. by apply Hdg. }
  exists (set_trees t (set_ground g m1)). split.
  { unfold update_spatial. rewrite Hm1. cbn [mbind result_bind].
    rewrite Hg. cbn [mbind result_bind]. by rewrite Ht. }
  split; [|exact Hsame].
  intros k. cbn [trees set_trees]. rewrite Hdomt. cbn [density set_ground].
  by rewrite elem_of_okeys.
Qed.
End labelling_facts.

Lemma update_spatial_labels_witness :
  ∃ m, update_spatial example_args 1000 (new_MapObj example_file) = Ok m ∧
    (∀ k, k ∈ dom (trees m) ↔
          is_Some (oget (density m) k) ∧ eligible example_args m k) ∧
    (∀ k1 k2 l1 l2, trees m !! k1 = Some l1 → trees m !! k2 = Some l2 →
                    coarse example_args k1 = coarse example_args k2 →
                    l1 = l2).
Proof.
  apply (update_spatial_labels example_args 1000); by vm_compute.
Defined.

(** ** What the second pass and the sparse cloud keep *)

Section second_pass_facts.
Context (args : Args) (recursion_limit : nat).
Context (cellsize_nonzero : cellsize args ≠ 0).
Context (joinedcells_nonzero : joinedcells args ≠ 0).

(** [MapObj(file)] with colours: the second pass leaves the spatial layers
    and the labels of the first as they are; the filtered density of an
    occupied cell is 1 plus the number of its points that [is_ground]
    rejects; a cell has colour totals exactly when it has such a point,
    and the totals are kept for the header's properties other than the
    substrings of ['xyz']. *)
Theorem update_colours_counts f :
  ∃ m0 m,
    update_spatial args recursion_limit (new_MapObj f) = Ok m0 ∧
    MapObj_init args recursion_limit f true = Ok m ∧
    ground m = ground m0 ∧ canopy m = canopy m0 ∧ density m = density m0 ∧
    trees m = trees m0 ∧
    (∀ c, is_Some (oget (density m) c) →
          filtered_density m !! c =
          Some (1 + length (filter (counted args (ground m0) c)
                              (points f)))%nat) ∧
    (∀ c, is_Some (colours m !! c) ↔
          ∃ p, p ∈ points f ∧ counted args (ground m0) c p) ∧
    (∀ c cols k, colours m !! c = Some cols →
                 (is_Some (cols !! k) ↔ k ∈ colour_names (names f))).
Proof.
  destruct (update_spatial_ok args recursion_limit cellsize_nonzero
              joinedcells_nonzero f)
    as (m1 & m0 & _ & Hm0 & Hinv & _ & Hdom & Hc & Hd & Hfd & Hf & Hcol &
        Hh & _).
  destruct (colours_inv_loop args cellsize_nonzero m0 (points f) [] m0)
    as (m & Hm & Hinv2); [by apply colours_inv_start| |].
  { intros p Hp. by apply (pass1_cells args f m1 m0 p). }
  destruct Hinv2 as (Hg2 & Hc2 & Hd2 & Ht2 & _ & _ & _ & Hfd2 & Hcol2 & Hn2).
  exists m0, m. split; [done|]. split.
  { unfold MapObj_init. rewrite Hm0. cbn [mbind result_bind].
    unfold update_colours. by rewrite Hf. }
  do 4 (split; [done|]). split; [|split; [done|]].
  - intros c Hocc. rewrite Hfd2, Hfd. rewrite Hd2, Hd in Hocc.
    destruct (Hinv c) as [Hnil Hcons].
    destruct (decide (cell_heights args c (points f) = [])) as [Hzs|Hzs].
    + destruct (Hnil Hzs) as (Hnone & _). rewrite Hnone in Hocc.
      by destruct Hocc.
    + destruct (Hcons Hzs) as (_ & -> & _). cbn. done.
  - intros c cols k. rewrite <-Hh. apply Hn2.
Qed.

(** [save_sparse_cloud] after the first pass never raises; the file it
    writes holds, in stream order, the points at least [grounddepth] above
    the ground of their cell and the points at the ground height of their
    cell, under the header and offset of the input; the layers of the map
    stay as they are and the map reads the new file from then on. *)
Theorem save_sparse_cloud_keeps f :
  ∃ m m',
    update_spatial args recursion_limit (new_MapObj f) = Ok m ∧
    save_sparse_cloud args m = Ok m' ∧
    points (file m') = filter (in_sparse args (ground m)) (points f) ∧
    names (file m') = names f ∧ offset (file m') = offset f ∧
    ground m' = ground m ∧ canopy m' = canopy m ∧
    density m' = density m ∧
    filtered_density m' = filtered_density m ∧ trees m' = trees m.
Proof.
  destruct (update_spatial_ok args recursion_limit cellsize_nonzero
              joinedcells_nonzero f)
    as (m1 & m & _ & Hm & Hinv & _ & Hdom & Hc & Hd & Hfd & Hf & Hcol &
        Hh & Hu & _).
  eexists m, _. split; [done|]. split.
  { apply (save_sparse_cloud_ok args cellsize_nonzero).
    intros p Hp. rewrite Hf in Hp. by apply (pass1_cells args f m1 m p). }
  cbn. by rewrite Hf, Hh, Hu.
Qed.

(** With a positive [grounddepth] a point that [is_lowest] accepts is one
    that [is_ground] accepts: the lowest points kept in the sparse cloud
    are skipped by [update_colours]. *)
Theorem lowest_is_ground m point :
  0 < grounddepth args →
  is_lowest args m point = Ok true → is_ground args m point = Ok true.
Proof.
  intros Hgd. unfold is_lowest, is_ground.
  destruct (coords args point) as [idx|e]; [|done].
  cbn [mbind result_bind].
  destruct (ground m !! idx) as [g|]; [|done].
  cbn [getitem mbind result_bind].
  intros [= Hl%bool_decide_eq_true]. f_equal. apply bool_decide_eq_true.
  rewrite Hl. unfold Qcminus. by rewrite Qcplus_opp_r.
Qed.
End second_pass_facts.

Lemma update_colours_counts_witness :
  ∃ m0 m,
    update_spatial example_args 1000 (new_MapObj example_file) = Ok m0 ∧
    MapObj_init example_args 1000 example_file true = Ok m ∧
    ground m = ground m0 ∧ canopy m = canopy m0 ∧ density m = density m0 ∧
    trees m = trees m0 ∧
    (∀ c, is_Some (oget (density m) c) →
          filtered_density m !! c =
          Some (1 + length (filter (counted example_args (ground m0) c)
                              (points example_file)))%nat) ∧
    (∀ c, is_Some (colours m !! c) ↔
          ∃ p, p ∈ points example_file ∧
               counted example_args (ground m0) c p) ∧
    (∀ c cols k, colours m !! c = Some cols →
                 (is_Some (cols !! k) ↔
                  k ∈ colour_names (names example_file))).
Proof.
  apply (update_colours_counts example_args 1000); by vm_compute.
Defined.

Lemma save_sparse_cloud_keeps_witness :
  ∃ m m',
    update_spatial example_args 1000 (new_MapObj low_file) = Ok m ∧
    save_sparse_cloud example_args m = Ok m' ∧
    points (file m') =
      filter (in_sparse example_args (ground m)) (points low_file) ∧
    names (file m') = names low_file ∧ offset (file m') = offset low_file ∧
    ground m' = ground m ∧ canopy m' = canopy m ∧
    density m' = density m ∧
    filtered_density m' = filtered_density m ∧ trees m' = trees m.
Proof.
  apply (save_sparse_cloud_keeps example_args 1000); by vm_compute.
Defined.

Lemma lowest_is_ground_witness :
  is_ground example_args example_map (point_at 0 0 0) = Ok true.
Proof.
  apply (lowest_is_ground example_args example_map (point_at 0 0 0));
    [by vm_compute|vm_compute; reflexivity].
Defined.

(** ** What a tree record holds *)

Section tree_data_facts.
Context (args : Args).
Context (to_latlon : Qc → Qc → Z → bool → Qc * Qc).

Lemma bind_Ok_inv {A B} (r : result A) (f : A → result B) b :
  r ≫= f = Ok b → ∃ a, r = Ok a ∧ f a = Ok b.
Proof. destruct r as [a|e]; [|done]. intros H. by exists a. Qed.

Lemma tree_colour_body_inv m k out ct out' :
  tree_colour_body m k out ct = Ok out' →
  ∃ n, filtered_density m !! k = Some n ∧
       out' = <[ct.1 := ct.2 / Qc_of_nat n]> out.
Proof.
  unfold tree_colour_body, truediv.
  destruct (filtered_density m !! k) as [n|]; [|done].
  cbn [getitem mbind result_bind].
  destruct (decide (Qc_of_nat n = 0)); [done|].
  cbn [mbind result_bind]. intros [= <-]. by exists n.
Qed.

(** The colour loop writes the names of the cell's colours only. *)
Lemma tree_colour_loop_other m k cts out data name :
  for_each cts (tree_colour_body m k) out = Ok data →
  name ∉ cts.*1 → data !! name = out !! name.
Proof.
  revert out. induction cts as [|ct cts IH]; intros out; cbn [for_each].
  - by intros [= <-].
  - intros (out1 & H1 & Hrest)%bind_Ok_inv [Hne Hnot]%not_elem_of_cons.
    apply tree_colour_body_inv in H1 as (n & _ & ->).
    rewrite (IH _ Hrest Hnot). by rewrite lookup_insert_ne.
Qed.

Lemma tree_colour_loop_value m k cts out data name total n :
  for_each cts (tree_colour_body m k) out = Ok data →
  filtered_density m !! k = Some n →
  NoDup cts.*1 → (name, total) ∈ cts →
  data !! name = Some (total / Qc_of_nat n).
Proof.
  intros Hloop Hn. revert out Hloop.
  induction cts as [|ct cts IH]; intros out; cbn [for_each];
    [by intros _ _ ?%elem_of_nil|].
  intros (out1 & H1 & Hrest)%bind_Ok_inv [Hfresh Hnd]%NoDup_cons Hin.
  apply tree_colour_body_inv in H1 as (n' & Hn' & ->).
  assert (n' = n) as -> by congruence.
  apply elem_of_cons in Hin as [<-|Hin]; [|by apply (IH _ Hrest)].
  cbn [fst snd] in Hfresh, Hrest.
  rewrite (tree_colour_loop_other _ _ _ _ _ _ Hrest Hfresh).
  by rewrite lookup_insert_eq.
Qed.

(** What [tree_data] starts its loop from. *)
Lemma tree_data_start m keys data :
  tree_data args to_latlon m keys = Ok data →
  ∃ out0,
    for_each keys (tree_data_body m) out0 = Ok data ∧
    out0 !! "height"%string = Some 0 ∧
    out0 !! "point_count"%string = Some 0 ∧
    out0 !! "area"%string =
      Some (Qc_of_nat (length keys) * (cellsize args * cellsize args)).
Proof.
  unfold tree_data.
  intros (mx & _ & (my & _ & (gs & _ & (base & _ & H)%bind_Ok_inv)
            %bind_Ok_inv)%bind_Ok_inv)%bind_Ok_inv.
  eexists. split; [exact H|]. split; [|split].
  - by rewrite !lookup_insert_ne, lookup_insert_eq by done.
  - by rewrite lookup_insert_eq.
  - by rewrite !lookup_insert_ne, lookup_insert_eq by done.
Qed.

(** The colours that [tree_data] reports are those of the cell its loop
    visits last: the cell's total over the cell's filtered density. *)
Theorem tree_data_last_colour m keys k data cols name total n :
  tree_data args to_latlon m (keys ++ [k]) = Ok data →
  colours m !! k = Some cols → cols !! name = Some total →
  filtered_density m !! k = Some n →
  data !! name = Some (total / Qc_of_nat n).
Proof.
  intros (out0 & Hloop & _)%tree_data_start Hcols Hname Hn.
  rewrite for_each_app in Hloop.
  apply bind_Ok_inv in Hloop as (out1 & _ & Hlast).
  cbn [for_each] in Hlast.
  apply bind_Ok_inv in Hlast as (out2 & Hbody & [= <-]).
  unfold tree_data_body in Hbody.
  apply bind_Ok_inv in Hbody as (h & _ & Hbody).
  apply bind_Ok_inv in Hbody as (c & _ & Hbody).
  apply bind_Ok_inv in Hbody as (g & _ & Hbody).
  apply bind_Ok_inv in Hbody as (pc & _ & Hbody).
  apply bind_Ok_inv in Hbody as (d & _ & Hbody).
  rewrite Hcols in Hbody. cbn [getitem mbind result_bind] in Hbody.
  apply (tree_colour_loop_value _ _ _ _ _ _ _ _ Hbody Hn).
  - apply NoDup_fst_map_to_list.
  - by apply elem_of_map_to_list.
Qed.

Lemma not_elem_of_map_to_list_fst (cols : gmap string Qc) name :
  cols !! name = None → name ∉ (map_to_list cols).*1.
Proof.
  intros Hnone ([k v] & -> & Hin%elem_of_map_to_list)%list_elem_of_fmap.
  cbn in Hnone. congruence.
Qed.

Lemma tree_data_loop_totals m keys out data h0 n0 a0 :
  for_each keys (tree_data_body m) out = Ok data →
  out !! "height"%string = Some h0 →
  out !! "point_count"%string = Some n0 →
  out !! "area"%string = Some a0 →
  (∀ k cols, k ∈ keys → colours m !! k = Some cols →
             cols !! "height"%string = None ∧
             cols !! "point_count"%string = None ∧
             cols !! "area"%string = None) →
  ∃ hs ds,
    Forall2 (λ k h, ∃ c g, canopy m !! k = Some c ∧
                           ground m !! k = Some g ∧ h = c - g) keys hs ∧
    Forall2 (λ k d, oget (density m) k = Some d) keys ds ∧
    data !! "height"%string = Some (foldl pymax h0 hs) ∧
    data !! "point_count"%string =
      Some (foldl (λ n d, n + Qc_of_nat d) n0 ds) ∧
    data !! "area"%string = Some a0.
Proof.
  revert out h0 n0. induction keys as [|k keys IH]; intros out h0 n0;
    cbn [for_each].
  - intros [= <-] Hh Hn Ha _. exists [], []. by repeat constructor.
  - intros (out1 & Hbody & Hrest)%bind_Ok_inv Hh Hn Ha Hfree.
    unfold tree_data_body in Hbody. rewrite Hh in Hbody.
    cbn [getitem mbind result_bind] in Hbody.
    apply bind_Ok_inv in Hbody as (c & Hc & Hbody).
    apply bind_Ok_inv in Hbody as (g & Hg & Hbody).
    rewrite lookup_insert_ne, Hn in Hbody by done.
    cbn [getitem mbind result_bind] in Hbody.
    apply bind_Ok_inv in Hbody as (d & Hd & Hbody).
    apply bind_Ok_inv in Hbody as (cols & Hcols & Hbody).
    assert (Hck : canopy m !! k = Some c)
      by (by destruct (canopy m !! k); [injection Hc as ->|]).
    assert (Hgk : ground m !! k = Some g)
      by (by destruct (ground m !! k); [injection Hg as ->|]).
    assert (Hdk : oget (density m) k = Some d)
      by (by destruct (oget (density m) k); [injection Hd as ->|]).
    assert (Hcolk : colours m !! k = Some cols)
      by (by destruct (colours m !! k); [injection Hcols as ->|]).
    destruct (Hfree k cols) as (Hf1 & Hf2 & Hf3); [by left|done|].
    destruct (IH out1 (pymax h0 (c - g)) (n0 + Qc_of_nat d))
      as (hs & ds & HFh & HFd & Hh' & Hn' & Ha'); [done| | | | |].
    + rewrite (tree_colour_loop_other _ _ _ _ _ _ Hbody)
        by (by apply not_elem_of_map_to_list_fst).
      by rewrite lookup_insert_ne, lookup_insert_eq.
    + rewrite (tree_colour_loop_other _ _ _ _ _ _ Hbody)
        by (by apply not_elem_of_map_to_list_fst).
      by rewrite lookup_insert_eq.
    + rewrite (tree_colour_loop_other _ _ _ _ _ _ Hbody)
        by (by apply not_elem_of_map_to_list_fst).
      by rewrite !lookup_insert_ne.
    + intros k' cols' Hk'. apply Hfree. by right.
    + exists ((c - g) :: hs), (d :: ds).
      split; [constructor; [by exists c, g|done]|].
      split; [by constructor|]. done.
Qed.

(** When no colour is named like one of its fields, [tree_data] reports
    as area the number of cells times [cellsize] squared, as height the
    greatest of 0 and the canopy-minus-ground of its cells, and as point
    count the sum of their densities. *)
Theorem tree_data_totals m keys data :
  tree_data args to_latlon m keys = Ok data →
  (∀ k cols, k ∈ keys → colours m !! k = Some cols →
             cols !! "height"%string = None ∧
             cols !! "point_count"%string = None ∧
             cols !! "area"%string = None) →
  ∃ hs ds,
    Forall2 (λ k h, ∃ c g, canopy m !! k = Some c ∧
                           ground m !! k = Some g ∧ h = c - g) keys hs ∧
    Forall2 (λ k d, oget (density m) k = Some d) keys ds ∧
    data !! "height"%string = Some (foldl pymax 0 hs) ∧
    data !! "point_count"%string =
      Some (foldl (λ n d, n + Qc_of_nat d) 0 ds) ∧
    data !! "area"%string =
      Some (Qc_of_nat (length keys) * (cellsize args * cellsize args)).
Proof.
  intros (out0 & Hloop & Hh & Hn & Ha)%tree_data_start Hfree.
  by apply (tree_data_loop_totals m keys out0 data).
Qed.
End tree_data_facts.

Lemma tree_data_last_colour_witness :
  red_tree_data !! "red"%string = Some (Qc_of_Z 200 / Qc_of_nat 2).
Proof.
  apply (tree_data_last_colour example_args plain_latlon red_map
           [XY 0 0] (XY 1 0) red_tree_data red_cols "red" (Qc_of_Z 200) 2);
    reflexivity.
Defined.

(** On [red_map] the mean of red over the tree is (100 + 200) / (2 + 2);
    the record holds 200 / 2, the mean of the cell visited last. *)
Lemma red_tree_data_is_last_cell :
  red_tree_data !! "red"%string = Some (Qc_of_Z 100).
Proof. apply (bool_decide_unpack _). vm_compute. exact I. Qed.

Lemma tree_data_totals_witness :
  ∃ hs ds,
    Forall2 (λ k h, ∃ c g, canopy red_map !! k = Some c ∧
                           ground red_map !! k = Some g ∧ h = c - g)
      [XY 0 0; XY 1 0] hs ∧
    Forall2 (λ k d, oget (density red_map) k = Some d) [XY 0 0; XY 1 0] ds ∧
    red_tree_data !! "height"%string = Some (foldl pymax 0 hs) ∧
    red_tree_data !! "point_count"%string =
      Some (foldl (λ n d, n + Qc_of_nat d) 0 ds) ∧
    red_tree_data !! "area"%string =
      Some (Qc_of_nat (length [XY 0 0; XY 1 0]) *
            (cellsize example_args * cellsize example_args)).
Proof.
  apply (tree_data_totals example_args plain_latlon red_map
           [XY 0 0; XY 1 0] red_tree_data); [reflexivity|].
  intros k cols Hk Hcols.
  assert (E : ∀ k', k' ∈ [XY 0 0; XY 1 0] →
    (c ← colours red_map !! k';
     Some (c !! "height"%string, c !! "point_count"%string,
           c !! "area"%string)) = Some (None, None, None)).
  { intros k' Hk'.
    apply elem_of_cons in Hk' as [->|Hk'];
      [|apply list_elem_of_singleton in Hk' as ->];
      reflexivity. }
  specialize (E k Hk). rewrite Hcols in E. cbn in E.
  by injection E as -> -> ->.
Defined.
